(** * XP progression engine of dnd_xp_bot.py

    A shallow embedding of the threshold table, the progression calculator,
    the JSON record store and the roster commands of [dnd_xp_bot.py],
    together with the properties the specification states about them.

    Python integers are unbounded, so they are [Z].  A JSON object is a
    [gmap] with [string] keys.  A Python exception is a constructor of
    [pyres]. *)

From stdpp Require Import gmap strings list sorting pretty.
From Stdlib Require Import ZArith Lia SpecFloat.

Local Open Scope Z_scope.

(** ** Python results *)

(** The exceptions the modelled code can raise. *)
Inductive exn : Type :=
  | IndexError
  | OverflowError
  | ZeroDivisionError
  | ValueError
  | AttributeError.

(** The outcome of a Python expression that may raise. *)
Inductive pyres (A : Type) : Type :=
  | Ok (a : A)
  | Raise (e : exn).
Arguments Ok {A} a.
Arguments Raise {A} e.

(** Sequencing: an exception of the first computation propagates. *)
#[global] Instance pyres_bind : MBind pyres := λ A B k r,
  match r with
  | Ok a => k a
  | Raise e => Raise e
  end.

#[global] Instance pyres_ret : MRet pyres := λ A a, Ok a.

(** [l[i]] on a Python list: a negative index counts from the end, and an
    index outside [-len, len) raises [IndexError]. *)
Definition py_getitem (l : list Z) (i : Z) : pyres Z :=
  let n := Z.of_nat (length l) in
  let j := if i <? 0 then i + n else i in
  if (0 <=? j) && (j <? n)
  then match l !! Z.to_nat j with
       | Some v => Ok v
       | None => Raise IndexError
       end
  else Raise IndexError.

(** [enumerate(l, start)] *)
Fixpoint enumerate (l : list Z) (start : Z) : list (Z * Z) :=
  match l with
  | [] => []
  | x :: l' => (start, x) :: enumerate l' (start + 1)
  end.

(** ** Threshold table *)

Definition PROGRESS_WIDTH : Z := 20.

(** Cumulative XP thresholds of levels 1 to 20. *)
Definition XP_THRESHOLDS : list Z :=
  [ 0; 300; 900; 2700; 6500; 14000; 23000; 34000; 48000; 64000;
    85000; 100000; 120000; 140000; 165000; 195000; 225000; 265000;
    305000; 355000 ].

(** ** Progression calculator *)

(** The body of the [for] loop of [level_from_xp], run over the remaining
    [(i, threshold)] pairs with the current value of [lvl]. *)
Fixpoint level_loop (xp_total : Z) (items : list (Z * Z)) (lvl : Z) : Z :=
  match items with
  | [] => lvl
  | (i, threshold) :: rest =>
      level_loop xp_total rest (if xp_total >=? threshold then i else lvl)
  end.

Definition level_from_xp (xp_total : Z) : Z :=
  let lvl := level_loop xp_total (enumerate XP_THRESHOLDS 1) 1 in
  Z.min lvl 20.

Definition next_threshold (level : Z) : pyres (option Z) :=
  if level >=? 20 then Ok None
  else x ← py_getitem XP_THRESHOLDS level; Ok (Some x).

Definition prev_threshold (level : Z) : pyres Z :=
  py_getitem XP_THRESHOLDS (level - 1).

Definition remaining_to_next (xp_total : Z) : pyres (option Z) :=
  let lvl := level_from_xp xp_total in
  nxt ← next_threshold lvl;
  match nxt with
  | None => Ok None
  | Some nxt => Ok (Some (Z.max 0 (nxt - xp_total)))
  end.

Definition progress_in_level (xp_total : Z) : pyres (Z * Z * Z) :=
  let lvl := level_from_xp xp_total in
  if lvl >=? 20 then Ok (0, 0, 20)
  else
    low ← prev_threshold lvl;
    high ← next_threshold lvl;
    let cur := xp_total - low in
    let need := match high with Some high => high - low | None => 0 end in
    Ok (Z.max 0 cur, Z.max 0 need, lvl).

(** ** Binary64 arithmetic *)

(** Python floats are IEEE 754 binary64 numbers: [spec_float] with a 53-bit
    mantissa and the exponent of the infinities at 1024. *)
Definition prec : Z := 53.
Definition emax : Z := 1024.

(** A float operation whose result is too large raises instead of
    returning an infinity. *)
Definition finite_or_overflow (f : spec_float) : pyres spec_float :=
  match f with
  | S754_infinity _ => Raise OverflowError
  | _ => Ok f
  end.

(** The conversion of an [int] operand to [float]: the nearest binary64
    number, ties to even. *)
Definition float_of_int (n : Z) : pyres spec_float :=
  finite_or_overflow (binary_normalize prec emax n 0 false).

(** [a / b] on two [int]s: the exact quotient rounded once to the nearest
    binary64 number, ties to even. *)
Definition int_truediv (a b : Z) : pyres spec_float :=
  if b =? 0 then Raise ZeroDivisionError
  else
    let s := xorb (a <? 0) (b <? 0) in
    if a =? 0 then Ok (S754_zero s)
    else
      let '(mz, ez, lz) :=
        SFdiv_core_binary prec emax (Z.abs a) 0 (Z.abs b) 0 in
      finite_or_overflow (binary_round_aux prec emax s mz ez lz).

(** [m * 2^e] rounded to the nearest integer, ties to even. *)
Definition round_half_even (m e : Z) : Z :=
  if 0 <=? e then m * 2 ^ e
  else
    let d := 2 ^ (- e) in
    let q := m / d in
    match 2 * (m mod d) ?= d with
    | Lt => q
    | Gt => q + 1
    | Eq => if Z.even q then q else q + 1
    end.

(** [int(round(x))] on a float. *)
Definition float_round (x : spec_float) : pyres Z :=
  match x with
  | S754_zero _ => Ok 0
  | S754_infinity _ => Raise OverflowError
  | S754_nan => Raise ValueError
  | S754_finite s m e => Ok (cond_Zopp s (round_half_even (Zpos m) e))
  end.

(** ** Progress bar *)

(** A Python [str] made of block characters, as its code points. *)
Definition FULL_BLOCK : N := 9608.
Definition LIGHT_SHADE : N := 9617.

(** The value of [c * n] for a one-character string [c]: empty when
    [n <= 0]. *)
Definition str_repeat (c : N) (n : Z) : list N := replicate (Z.to_nat n) c.

(** [sys.maxsize] of a 64-bit CPython, the largest length and index. *)
Definition MAXSIZE : Z := 2 ^ 63 - 1.

(** The operation [c * n]: the count is converted to an index first, which
    raises [OverflowError] outside the signed 64-bit range.  A string too
    long for the memory of the machine raises [MemoryError]; how long that
    is depends on the machine and is not modelled, so results are only
    stated for strings of moderate length. *)
Definition str_mul (c : N) (n : Z) : pyres (list N) :=
  if (n <? - MAXSIZE - 1) || (MAXSIZE <? n) then Raise OverflowError
  else Ok (str_repeat c n).

(** The operation [a + b] on strings: a result longer than [sys.maxsize]
    raises [OverflowError]. *)
Definition str_add (a b : list N) : pyres (list N) :=
  if MAXSIZE <? Z.of_nat (length a) + Z.of_nat (length b)
  then Raise OverflowError
  else Ok (a ++ b).

(** [int(round(width * (cur / need)))] *)
Definition filled_cells (cur need width : Z) : pyres Z :=
  q ← int_truediv cur need;
  w ← float_of_int width;
  float_round (SFmul prec emax w q).

Definition render_progress_bar (cur need width : Z) : pyres (list N) :=
  if need <=? 0 then str_mul FULL_BLOCK width
  else
    filled ← filled_cells cur need width;
    let filled := Z.max 0 (Z.min width filled) in
    full ← str_mul FULL_BLOCK filled;
    light ← str_mul LIGHT_SHADE (width - filled);
    str_add full light.

(** ** Record store *)

(** A member record is the JSON object [{"xp": n}]; a group record is
    [{"members": {uid: member record}}]; the store maps the stringified
    guild id to its group record. *)
Record GroupRecord : Type := { members : gmap string (gmap string Z) }.

(** The contents of [DATA_FILE]: [None] while the file does not exist. *)
Definition load_db (file : option (gmap string GroupRecord))
  : gmap string GroupRecord :=
  match file with
  | None => ∅
  | Some db => db
  end.

(** [save_db] dumps [db] to [DATA_FILE + ".tmp"] and moves that file onto
    [DATA_FILE]; afterwards [DATA_FILE] holds [db]. *)
Definition save_db (db : gmap string GroupRecord)
  : option (gmap string GroupRecord) :=
  Some db.

(** [str] of an integer id. *)
Definition str (n : Z) : string := pretty n.

(** [guild_bucket] inserts an empty bucket into [db] when [gid] is unknown
    and returns [db[gid]].  The returned dict is a reference into [db]; it
    is represented here by the key [gid] of the updated [db]. *)
Definition guild_bucket (db : gmap string GroupRecord) (guild_id : Z)
  : gmap string GroupRecord :=
  let gid := str guild_id in
  match db !! gid with
  | None => <[gid := {| members := ∅ |}]> db
  | Some _ => db
  end.

(** [db[gid]["members"]], for a [gid] that [guild_bucket] returned. *)
Definition get_members (db : gmap string GroupRecord) (gid : string)
  : gmap string (gmap string Z) :=
  match db !! gid with
  | Some g => members g
  | None => ∅
  end.

(** [members[uid] = m], through the reference [members = db[gid]["members"]]. *)
Definition set_member (db : gmap string GroupRecord) (gid uid : string)
    (m : gmap string Z) : gmap string GroupRecord :=
  <[gid := {| members := <[uid := m]> (get_members db gid) |}]> db.

(** [ensure_member(g, user_id)] for [g = db[gid]]: the member record is
    again a reference into [db], represented by the keys [gid], [uid]. *)
Definition ensure_member (db : gmap string GroupRecord) (gid : string)
    (user_id : Z) : gmap string GroupRecord :=
  let uid := str user_id in
  match get_members db gid !! uid with
  | None => set_member db gid uid {["xp" := 0]}
  | Some _ => db
  end.

(** [int(m.get("xp", 0))] *)
Definition member_xp (m : gmap string Z) : Z :=
  match m !! "xp" with
  | Some x => x
  | None => 0
  end.

(** The record behind the reference [m = db[gid]["members"][uid]]. *)
Definition get_member (db : gmap string GroupRecord) (gid uid : string)
  : gmap string Z :=
  match get_members db gid !! uid with
  | Some m => m
  | None => ∅
  end.

(** [m["xp"] = v] through the reference [m]. *)
Definition set_member_xp (db : gmap string GroupRecord) (gid uid : string)
    (v : Z) : gmap string GroupRecord :=
  set_member db gid uid (<["xp" := v]> (get_member db gid uid)).

(** The xp of a member as [DATA_FILE] records it. *)
Definition xp_on_file (file : option (gmap string GroupRecord))
    (guild_id user_id : Z) : Z :=
  member_xp (get_member (load_db file) (str guild_id) (str user_id)).

(** ** Commands *)

(** What a command leaves behind: the contents of [DATA_FILE] when it
    returns, the final value of its local [db] (if it loaded one), and
    the data it hands to the presentation code. *)
Record Run (R : Type) : Type := MkRun {
  file_after : option (gmap string GroupRecord);
  db_local : option (gmap string GroupRecord);
  reply : pyres R
}.
Arguments MkRun {R} _ _ _.
Arguments file_after {R} _.
Arguments db_local {R} _.
Arguments reply {R} _.

(** [make_embed(..., guild=interaction.guild)], as far as it can fail.  The
    footer icon is [guild.icon.url if guild.icon else discord.Embed.Empty];
    [has_icon] says whether [guild.icon] is set.  The bot is written with
    [app_commands], that is for discord.py 2, where [discord.Embed] has no
    attribute [Empty]: for a guild without an icon the expression raises
    [AttributeError]. *)
Definition make_embed (has_icon : bool) : pyres () :=
  if has_icon then Ok () else Raise AttributeError.

Inductive JoinReply : Type :=
  | JoinDenied
  | AlreadyInParty (xp_now lvl : Z) (rem : option Z)
  | Joined (xp cur_level : Z) (rem : option Z).

(** [join]; [permitted] is the outcome of the permission test
    [target == interaction.user or _is_moderator_or_admin(...)]. *)
Definition join (permitted : bool) (guild_id target_id level xp : Z)
    (file : option (gmap string GroupRecord)) : Run JoinReply :=
  if negb permitted then MkRun file None (Ok JoinDenied)
  else
    let db := load_db file in
    let db := guild_bucket db guild_id in
    let gid := str guild_id in
    let uid := str target_id in
    match get_members db gid !! uid with
    | Some m =>
        let xp_now := member_xp m in
        let lvl := level_from_xp xp_now in
        MkRun file (Some db)
          (rem ← remaining_to_next xp_now; Ok (AlreadyInParty xp_now lvl rem))
    | None =>
        match py_getitem XP_THRESHOLDS (level - 1) with
        | Raise e => MkRun file (Some db) (Raise e)
        | Ok min_xp =>
            let xp := if xp <? min_xp then min_xp else xp in
            let db := set_member db gid uid {["xp" := xp]} in
            let file := save_db db in
            let cur_level := level_from_xp xp in
            MkRun file (Some db)
              (rem ← remaining_to_next xp; Ok (Joined xp cur_level rem))
        end
    end.

Inductive StatusReply : Type :=
  | NotInParty
  | Status (lvl xp : Z) (rem : option Z).

(** [status]; [if not m] holds for a missing record and for an empty one. *)
Definition status (guild_id user_id : Z)
    (file : option (gmap string GroupRecord)) : Run StatusReply :=
  let db := load_db file in
  let db := guild_bucket db guild_id in
  let m := get_members db (str guild_id) !! str user_id in
  match m with
  | None => MkRun file (Some db) (Ok NotInParty)
  | Some m =>
      if decide (m = ∅) then MkRun file (Some db) (Ok NotInParty)
      else
        let xp := member_xp m in
        MkRun file (Some db)
          (p ← progress_in_level xp;
           rem ← remaining_to_next xp;
           Ok (Status (p.2) xp rem))
  end.

(** The dict [add_xp_for_member] returns (without the [user] object). *)
Record AddInfo : Type := {
  add : Z;
  after_xp : Z;
  after_lvl : Z;
  leveled : bool;
  rem : option Z;
  cur_in_level : Z;
  need_for_level : Z
}.

Definition add_xp_for_member (guild_id user_id add : Z)
    (file : option (gmap string GroupRecord)) : Run AddInfo :=
  let db := load_db file in
  let db := guild_bucket db guild_id in
  let gid := str guild_id in
  let db := ensure_member db gid user_id in
  let uid := str user_id in
  let before_xp := member_xp (get_member db gid uid) in
  let before_lvl := level_from_xp before_xp in
  let db := set_member_xp db gid uid (Z.max 0 (before_xp + add)) in
  let after_xp := member_xp (get_member db gid uid) in
  let after_lvl := level_from_xp after_xp in
  let file := save_db db in
  let leveled := bool_decide (after_lvl > before_lvl) in
  MkRun file (Some db)
    (rem ← remaining_to_next after_xp;
     p ← progress_in_level after_xp;
     Ok {| add := add; after_xp := after_xp; after_lvl := after_lvl;
           leveled := leveled; rem := rem;
           cur_in_level := p.1.1; need_for_level := p.1.2 |}).

Inductive AddxpReply : Type :=
  | ZeroXp
  | Added (info : AddInfo).

(** [addxp]: a zero amount is answered, through [make_embed], without
    touching the store. *)
Definition addxp (has_icon : bool) (guild_id user_id amount : Z)
    (file : option (gmap string GroupRecord)) : Run AddxpReply :=
  if amount =? 0 then MkRun file None (_ ← make_embed has_icon; Ok ZeroXp)
  else
    let r := add_xp_for_member guild_id user_id amount file in
    MkRun (file_after r) (db_local r) (info ← reply r; Ok (Added info)).

Inductive SetlevelReply : Type :=
  | NeedAdmin
  | LevelSet (level xp : Z).

(** [setlevel]; [administrator] is
    [interaction.user.guild_permissions.administrator].  Both answers are
    built with [make_embed]; the second one after [save_db]. *)
Definition setlevel (administrator has_icon : bool)
    (guild_id user_id level : Z)
    (file : option (gmap string GroupRecord)) : Run SetlevelReply :=
  if negb administrator
  then MkRun file None (_ ← make_embed has_icon; Ok NeedAdmin)
  else
    let db := load_db file in
    let db := guild_bucket db guild_id in
    let gid := str guild_id in
    let db := ensure_member db gid user_id in
    let uid := str user_id in
    match py_getitem XP_THRESHOLDS (level - 1) with
    | Raise e => MkRun file (Some db) (Raise e)
    | Ok t =>
        let db := set_member_xp db gid uid t in
        let file := save_db db in
        let xp := member_xp (get_member db gid uid) in
        MkRun file (Some db)
          (_ ← progress_in_level xp;
           _ ← remaining_to_next xp;
           _ ← make_embed has_icon;
           Ok (LevelSet level xp))
    end.

(** ** Tuple comparison and [list.sort] *)

(** Lexicographic combination of two three-way comparisons, as Python
    compares sequences: the first differing position decides. *)
Definition lex (c1 c2 : comparison) : comparison :=
  match c1 with
  | Eq => c2
  | _ => c1
  end.

Definition pair_compare {A B : Type} (cmpA : A → A → comparison)
    (cmpB : B → B → comparison) (p q : A * B) : comparison :=
  lex (cmpA p.1 q.1) (cmpB p.2 q.2).

(** A three-way comparison that describes a total order. *)
Class TotalCmp {A : Type} (cmp : A → A → comparison) : Prop := {
  cmp_eq : ∀ x y, cmp x y = Eq → x = y;
  cmp_refl : ∀ x, cmp x x = Eq;
  cmp_antisym : ∀ x y, cmp y x = CompOpp (cmp x y);
  cmp_trans : ∀ x y z, cmp x y = Lt → cmp y z = Lt → cmp x z = Lt
}.

(** [a <= b], that is [not (b < a)]: the only test a stable sort makes. *)
Definition cmp_le {A : Type} (cmp : A → A → comparison) (a b : A) : Prop :=
  cmp b a ≠ Lt.

#[global] Instance cmp_le_dec {A : Type} (cmp : A → A → comparison) (a b : A) :
  Decision (cmp_le cmp a b) := decide (cmp b a ≠ Lt).

(** The rows of [sortable]: [(-lvl, -xp, name.lower(), xp, lvl, name)].
    Strings are compared code point by code point; a name is held here as
    its UTF-8 bytes, whose byte order is the code point order. *)
Definition row_compare (a b : Z * Z * string * Z * Z * string) : comparison :=
  pair_compare
    (pair_compare
       (pair_compare
          (pair_compare (pair_compare Z.compare Z.compare) String.compare)
          Z.compare)
       Z.compare)
    String.compare a b.

(** [list.sort()] on rows: a stable merge sort by [<]. *)
Definition list_sort (l : list (Z * Z * string * Z * Z * string))
  : list (Z * Z * string * Z * Z * string) :=
  merge_sort (cmp_le row_compare) l.

Fixpoint mapM_pyres {A B : Type} (f : A → pyres B) (l : list A)
  : pyres (list B) :=
  match l with
  | [] => Ok []
  | x :: l' => y ← f x; ys ← mapM_pyres f l'; Ok (y :: ys)
  end.

(** What a sorted row shows in the embed: name, level and xp. *)
Definition row_entry (row : Z * Z * string * Z * Z * string) : string * Z * Z :=
  let '(_, _, _, xp, lvl, name) := row in (name, lvl, xp).

(** ** Roster listing and batch award *)

Inductive PartyReply : Type :=
  | PartyEmpty
  | PartyList (fields : list (string * Z * Z * option Z)).

Inductive AddxpAllReply : Type :=
  | AllZeroXp
  | AllNobody
  | AllAwarded.

Section roster.

(** [str.lower]. *)
Variable lower : string → string.

(** [_get_member_safe(guild, int(uid))]: the id and the display name of the
    guild member stored under [uid], or [None] when the guild no longer
    has that member. *)
Variable fetch_member : string → option (Z * string).

(** [member.display_name if member else f"UID:{uid}"] *)
Definition display_name (uid : string) : string :=
  match fetch_member uid with
  | Some member => member.2
  | None => "UID:" +:+ uid
  end.

(** One iteration of the loop that fills [sortable]. *)
Definition sortable_row (uid : string) (data : gmap string Z)
  : Z * Z * string * Z * Z * string :=
  let xp := member_xp data in
  let lvl := level_from_xp xp in
  let name := display_name uid in
  (- lvl, - xp, lower name, xp, lvl, name).

(** [sortable] after [sortable.sort()].  The rows are collected in the
    iteration order of [members.items()]; the sorted list does not depend
    on that order, because rows that compare equal are identical. *)
Definition party_sortable (members : gmap string (gmap string Z))
  : list (Z * Z * string * Z * Z * string) :=
  list_sort ((λ kv, sortable_row kv.1 kv.2) <$> map_to_list members).

(** One field of the embed: name, level, xp and the remaining xp. *)
Definition party_field (row : Z * Z * string * Z * Z * string)
  : pyres (string * Z * Z * option Z) :=
  let '(_, _, _, xp, lvl, name) := row in
  rem ← remaining_to_next xp;
  Ok (name, lvl, xp, rem).

(** [party]: the embed is made once the rows are sorted and before the
    first field is added. *)
Definition party (has_icon : bool) (guild_id : Z)
    (file : option (gmap string GroupRecord)) : Run PartyReply :=
  let db := load_db file in
  let db := guild_bucket db guild_id in
  let members := get_members db (str guild_id) in
  if decide (members = ∅) then MkRun file (Some db) (Ok PartyEmpty)
  else
    let sortable := party_sortable members in
    MkRun file (Some db)
      (_ ← make_embed has_icon;
       fields ← mapM_pyres party_field sortable;
       Ok (PartyList fields)).

(** The loop of [addxp_all] over the member ids read before the loop:
    ids whose member cannot be fetched are skipped, every other one goes
    through [add_xp_for_member], each in its own critical section. *)
Definition addxp_all_loop (guild_id amount : Z) (member_ids : list string)
    (file : option (gmap string GroupRecord))
  : option (gmap string GroupRecord) :=
  foldl (λ file uid,
           match fetch_member uid with
           | None => file
           | Some member =>
               file_after (add_xp_for_member guild_id member.1 amount file)
           end)
        file member_ids.

(** [addxp_all]: the member ids are read outside the lock, and the embed
    that collects the results is made before the loop, so that a failure
    of [make_embed] leaves the loop unentered. *)
Definition addxp_all (has_icon : bool) (guild_id amount : Z)
    (file : option (gmap string GroupRecord)) : Run AddxpAllReply :=
  if amount =? 0 then MkRun file None (_ ← make_embed has_icon; Ok AllZeroXp)
  else
    let db := load_db file in
    let db := guild_bucket db guild_id in
    let member_ids := (map_to_list (get_members db (str guild_id))).*1 in
    match member_ids with
    | [] => MkRun file (Some db) (_ ← make_embed has_icon; Ok AllNobody)
    | _ :: _ =>
        match make_embed has_icon with
        | Raise e => MkRun file (Some db) (Raise e)
        | Ok _ =>
            MkRun (addxp_all_loop guild_id amount member_ids file) (Some db)
              (Ok AllAwarded)
        end
    end.

(** What the roster shows of one stored member: name, level and xp. *)
Definition roster_entry (kv : string * gmap string Z) : string * Z * Z :=
  (display_name kv.1, level_from_xp (member_xp kv.2), member_xp kv.2).

(** The order of the roster in the words of the specification: descending
    level, ties broken by descending xp, further ties by ascending
    lower-cased name. *)
Definition roster_order (a b : string * Z * Z) : Prop :=
  let '(name_a, lvl_a, xp_a) := a in
  let '(name_b, lvl_b, xp_b) := b in
  lvl_a > lvl_b ∨
  (lvl_a = lvl_b ∧
   (xp_a > xp_b ∨
    (xp_a = xp_b ∧ String.compare (lower name_a) (lower name_b) ≠ Gt))).

(** The slash commands that reach the store, and the file each leaves
    behind. *)
Inductive Command : Type :=
  | CmdJoin (permitted : bool) (guild_id target_id level xp : Z)
  | CmdStatus (guild_id user_id : Z)
  | CmdParty (has_icon : bool) (guild_id : Z)
  | CmdAddxp (has_icon : bool) (guild_id user_id amount : Z)
  | CmdAddxpAll (has_icon : bool) (guild_id amount : Z)
  | CmdSetlevel (administrator has_icon : bool) (guild_id user_id level : Z).

Definition exec (c : Command) (file : option (gmap string GroupRecord))
  : option (gmap string GroupRecord) :=
  match c with
  | CmdJoin permitted guild_id target_id level xp =>
      file_after (join permitted guild_id target_id level xp file)
  | CmdStatus guild_id user_id => file_after (status guild_id user_id file)
  | CmdParty has_icon guild_id => file_after (party has_icon guild_id file)
  | CmdAddxp has_icon guild_id user_id amount =>
      file_after (addxp has_icon guild_id user_id amount file)
  | CmdAddxpAll has_icon guild_id amount =>
      file_after (addxp_all has_icon guild_id amount file)
  | CmdSetlevel administrator has_icon guild_id user_id level =>
      file_after (setlevel administrator has_icon guild_id user_id level file)
  end.

End roster.

(** ** Concurrent awards through [db_lock] *)

(** Where a call of [add_xp_for_member] stands, with the local variables
    it has set by then. *)
Inductive pc : Type :=
  | Waiting
  | Locked
  | Loaded (db : gmap string GroupRecord) (before_xp before_lvl : Z)
  | Saved (before_lvl after_xp after_lvl : Z)
  | Released (before_lvl after_xp after_lvl : Z)
  | Done (result : pyres AddInfo).

Record Task : Type := { t_add : Z; t_pc : pc }.

(** The shared world of the calls: [DATA_FILE], the holder of [db_lock]
    (an index into [tasks]) and the calls in flight. *)
Record Sys : Type := {
  sys_file : option (gmap string GroupRecord);
  sys_lock : option nat;
  tasks : list Task
}.

Definition set_pc (s : Sys) (i : nat) (t : Task) (p : pc) : list Task :=
  <[i := {| t_add := t_add t; t_pc := p |}]> (tasks s).

Section concurrent.

(** All calls award the same member of the same guild. *)
Variables guild_id user_id : Z.

(** One atomic step of call [i], with the deltas it commits to the file:
    - [Waiting]: take [db_lock]; not enabled while another call holds it;
    - [Locked]: [load_db], [guild_bucket], [ensure_member], read [before_xp];
    - [Loaded]: write [m["xp"]] and [save_db(db)];
    - [Saved]: leave the [async with] block, releasing [db_lock];
    - [Released]: compute [leveled], [rem] and the progress, and return. *)
Definition task_step (s : Sys) (i : nat) : option (Sys * list Z) :=
  t ← tasks s !! i;
  match t_pc t with
  | Waiting =>
      match sys_lock s with
      | Some _ => None
      | None =>
          Some ({| sys_file := sys_file s; sys_lock := Some i;
                   tasks := set_pc s i t Locked |}, [])
      end
  | Locked =>
      let db := load_db (sys_file s) in
      let db := guild_bucket db guild_id in
      let gid := str guild_id in
      let db := ensure_member db gid user_id in
      let before_xp := member_xp (get_member db gid (str user_id)) in
      let before_lvl := level_from_xp before_xp in
      Some ({| sys_file := sys_file s; sys_lock := sys_lock s;
               tasks := set_pc s i t (Loaded db before_xp before_lvl) |}, [])
  | Loaded db before_xp before_lvl =>
      let gid := str guild_id in
      let uid := str user_id in
      let db := set_member_xp db gid uid (Z.max 0 (before_xp + t_add t)) in
      let after_xp := member_xp (get_member db gid uid) in
      let after_lvl := level_from_xp after_xp in
      Some ({| sys_file := save_db db; sys_lock := sys_lock s;
               tasks := set_pc s i t (Saved before_lvl after_xp after_lvl) |},
            [t_add t])
  | Saved before_lvl after_xp after_lvl =>
      Some ({| sys_file := sys_file s; sys_lock := None;
               tasks := set_pc s i t (Released before_lvl after_xp after_lvl) |},
            [])
  | Released before_lvl after_xp after_lvl =>
      let leveled := bool_decide (after_lvl > before_lvl) in
      let result :=
        rem ← remaining_to_next after_xp;
        p ← progress_in_level after_xp;
        Ok {| add := t_add t; after_xp := after_xp; after_lvl := after_lvl;
              leveled := leveled; rem := rem;
              cur_in_level := p.1.1; need_for_level := p.1.2 |} in
      Some ({| sys_file := sys_file s; sys_lock := sys_lock s;
               tasks := set_pc s i t (Done result) |}, [])
  | Done _ => None
  end.

(** A schedule names the call that moves next.  [run] follows it and
    collects the committed deltas in commit order; it is [None] when the
    schedule picks a call that cannot move. *)
Fixpoint run (s : Sys) (sched : list nat) : option (Sys * list Z) :=
  match sched with
  | [] => Some (s, [])
  | i :: sched' =>
      '(s1, ev) ← task_step s i;
      '(s2, evs) ← run s1 sched';
      Some (s2, ev ++ evs)
  end.

(** What the invariant of the protocol says about call [i]: a call inside
    the [async with] block holds the lock, no other call does, and the
    [before_xp] a call has read is still the xp on file. *)
Definition task_ok (s : Sys) (i : nat) (t : Task) : Prop :=
  match t_pc t with
  | Waiting | Released _ _ _ | Done _ => sys_lock s ≠ Some i
  | Locked | Saved _ _ _ => sys_lock s = Some i
  | Loaded _ before_xp _ =>
      sys_lock s = Some i ∧
      before_xp = xp_on_file (sys_file s) guild_id user_id
  end.

End concurrent.

(** [n] calls with deltas [ds], none started. *)
Definition init_sys (file : option (gmap string GroupRecord)) (ds : list Z)
  : Sys :=
  {| sys_file := file; sys_lock := None;
     tasks := (λ d, {| t_add := d; t_pc := Waiting |}) <$> ds |}.

Definition is_done (t : Task) : bool :=
  match t_pc t with
  | Done _ => true
  | _ => false
  end.

Definition all_done (s : Sys) : bool := forallb is_done (tasks s).

(** A call has committed once it is past [save_db]. *)
Definition is_committed (t : Task) : bool :=
  match t_pc t with
  | Saved _ _ _ | Released _ _ _ | Done _ => true
  | _ => false
  end.

(** The deltas of the calls that have committed, in task order. *)
Fixpoint committed (ts : list Task) : list Z :=
  match ts with
  | [] => []
  | t :: ts' =>
      if is_committed t then t_add t :: committed ts' else committed ts'
  end.

(** The clamped updates applied one after another. *)
Definition award_seq (x : Z) (ds : list Z) : Z :=
  foldl (λ x d, Z.max 0 (x + d)) x ds.

Definition sum_list (ds : list Z) : Z := foldr Z.add 0 ds.

(** The schedule that runs the calls [i, i+1, ..., i+n-1] one after
    another, each through its five steps. *)
Fixpoint sequential (i n : nat) : list nat :=
  match n with
  | O => []
  | S n' => [i; i; i; i; i] ++ sequential (S i) n'
  end.

(** The invariant of the lock protocol, for calls with deltas [ds] on a
    member whose xp was [x0]: every call respects the lock, and the xp on
    file is the clamped updates of the committed calls, applied in commit
    order [log]. *)
Definition sys_inv (guild_id user_id x0 : Z) (ds : list Z) (s : Sys)
    (log : list Z) : Prop :=
  (∀ i t, tasks s !! i = Some t → task_ok guild_id user_id s i t) ∧
  t_add <$> tasks s = ds ∧
  xp_on_file (sys_file s) guild_id user_id = award_seq x0 log ∧
  log ≡ₚ committed (tasks s).

(** ** Sample data for concrete runs *)

(** A store with one guild, ["7"], and one member, ["42"], who has [x] xp. *)
Definition demo_file (x : Z) : option (gmap string GroupRecord) :=
  Some {[ "7" := {| members := {[ "42" := {[ "xp" := x ]} ]} |} ]}.

(** [str.lower] on ASCII text. *)
Definition ascii_lower_char (c : Ascii.ascii) : Ascii.ascii :=
  let n := Ascii.N_of_ascii c in
  if ((65 <=? n) && (n <=? 90))%N then Ascii.ascii_of_N (n + 32) else c.

Fixpoint ascii_lower (s : string) : string :=
  match s with
  | EmptyString => EmptyString
  | String c s' => String (ascii_lower_char c) (ascii_lower s')
  end.

(** A guild with four members, three of them still resolvable. *)
Definition roster_file : option (gmap string GroupRecord) :=
  Some {[ "7" := {| members :=
            {[ "1" := {[ "xp" := 300 ]};
               "2" := {[ "xp" := 7000 ]};
               "3" := {[ "xp" := 300 ]};
               "4" := {[ "xp" := 450 ]} ]} |} ]}.

Definition roster_names (uid : string) : option (Z * string) :=
  if decide (uid = "1") then Some (1, "bob")
  else if decide (uid = "2") then Some (2, "Dave")
  else if decide (uid = "3") then Some (3, "Alice")
  else None.

(** ** Auxiliary predicates *)



(** The checks on one level that the table lemmas evaluate over the whole
    range of levels. *)
Definition threshold_check (L : Z) : bool :=
  match prev_threshold L, XP_THRESHOLDS !! Z.to_nat (L - 1) with
  | Ok t, Some t' =>
      (t =? t') && (level_from_xp t =? L)
      && ((L <? 2) || (level_from_xp (t - 1) =? L - 1))
  | _, _ => false
  end.

Definition neighbours_check (L : Z) : bool :=
  match prev_threshold L, next_threshold L with
  | Ok _, Ok (Some _) => true
  | _, _ => false
  end.

(** A float that is zero or finite with [m * 2^e < 2^K]. *)
Definition float_below (K : Z) (x : spec_float) : Prop :=
  match x with
  | S754_zero _ => True
  | S754_finite _ m e => Zdigits2 (Zpos m) + e ≤ K
  | _ => False
  end.

(** ** Message chunks *)

Definition MAX_MESSAGE_LEN : nat := 1900.

(** The [while start < len(text)] loop of [send_text_safely], with the
    chunks collected so far; [text[start:start + MAX_MESSAGE_LEN]] is
    [take MAX_MESSAGE_LEN (drop start text)].  [fuel] bounds the number of
    iterations; [None] means it ran out. *)
Fixpoint chunk_loop {A : Type} (fuel : nat) (text : list A) (start : nat)
    (chunks : list (list A)) : option (list (list A)) :=
  if decide (start < length text)%nat then
    match fuel with
    | O => None
    | S fuel' =>
        chunk_loop fuel' text (start + MAX_MESSAGE_LEN)%nat
          (chunks ++ [take MAX_MESSAGE_LEN (drop start text)])
    end
  else Some chunks.

(** A message sent through [interaction.response.send_message] or through
    [interaction.followup.send]. *)
Inductive Sent (A : Type) : Type :=
  | ViaResponse (chunk : list A)
  | ViaFollowup (chunk : list A).
Arguments ViaResponse {A} chunk.
Arguments ViaFollowup {A} chunk.

Definition payload {A : Type} (m : Sent A) : list A :=
  match m with
  | ViaResponse chunk | ViaFollowup chunk => chunk
  end.

(** [send_text_safely]: the messages it sends, in order.  [is_done] is
    [interaction.response.is_done()]; [chunks[0]] raises on an empty list. *)
Definition send_text_safely {A : Type} (is_done : bool) (text : list A)
  : option (pyres (list (Sent A))) :=
  chunks ← chunk_loop (length text) text 0%nat [];
  Some (if is_done then Ok (ViaFollowup <$> chunks)
        else match chunks with
             | [] => Raise IndexError
             | first :: chunks => Ok (ViaResponse first :: (ViaFollowup <$> chunks))
             end).

(** ** Absolute progress label *)

(** [int(x)] on a float: truncation toward zero. *)
Definition float_trunc (x : spec_float) : pyres Z :=
  match x with
  | S754_zero _ => Ok 0
  | S754_infinity _ => Raise OverflowError
  | S754_nan => Raise ValueError
  | S754_finite s m e =>
      Ok (cond_Zopp s (if 0 <=? e then Zpos m * 2 ^ e else Zpos m / 2 ^ (- e)))
  end.

(** [int(cur / need * 100)] *)
Definition percent_of (cur need : Z) : pyres Z :=
  q ← int_truediv cur need;
  h ← float_of_int 100;
  float_trunc (SFmul prec emax q h).

(** An [Optional[int]] inside an f-string. *)
Definition str_opt (o : option Z) : string :=
  match o with
  | Some n => str n
  | None => "None"
  end.

Definition render_progress_abs (xp_total : Z) : pyres (string * option Z) :=
  p ← progress_in_level xp_total;
  let '(cur, need, lvl) := p in
  if lvl =? 20 then Ok ("MAX", None)
  else
    low ← prev_threshold lvl;
    high ← next_threshold lvl;
    percent ← (if need =? 0 then Ok 100 else percent_of cur need);
    Ok (str low +:+ " → " +:+ str xp_total +:+ " из " +:+ str_opt high
        +:+ " (" +:+ str percent +:+ "%)",
        Some percent).

(** A float that is zero or a finite number with a positive sign. *)
Definition float_nonneg (x : spec_float) : Prop :=
  match x with
  | S754_zero _ => True
  | S754_finite s _ _ => s = false
  | _ => False
  end.

(** ** More predicates on the calls and the commands *)

(** A call is inside the [async with db_lock] block. *)
Definition in_critical (t : Task) : bool :=
  match t_pc t with
  | Locked | Loaded _ _ _ | Saved _ _ _ => true
  | _ => false
  end.

(** Whoever holds the lock is a call inside the block. *)
Definition lock_held_by_task (s : Sys) : Prop :=
  match sys_lock s with
  | None => True
  | Some i => ∃ t, tasks s !! i = Some t ∧ in_critical t = true
  end.

(** The guild a command works on. *)
Definition command_guild (c : Command) : Z :=
  match c with
  | CmdJoin _ guild_id _ _ _ | CmdStatus guild_id _ | CmdParty _ guild_id
  | CmdAddxp _ guild_id _ _ | CmdAddxpAll _ guild_id _
  | CmdSetlevel _ _ guild_id _ _ => guild_id
  end.

(** * Properties *)

(** ** The calculator on the concrete table *)

(** Case analysis on the outermost threshold test of an unrolled loop. *)
Ltac case_geb :=
  match goal with
  | |- context [if ?x >=? ?t then ?a else _] =>
      destruct (Z.geb_spec x t); [try lia|]
  end.

Lemma level_from_xp_bounds (xp : Z) : 1 ≤ level_from_xp xp ≤ 20.
Proof.
  unfold level_from_xp; cbn.
  repeat case_geb; lia.
Qed.

(** The loop keeps the last index whose threshold [xp] reaches, so a larger
    [xp] can only move the result to a later index.  This holds for any
    table, sorted or not. *)
Lemma level_loop_mono (table : list Z) :
  ∀ start xp1 xp2 l1 l2,
    xp1 ≤ xp2 → l1 ≤ l2 → l2 ≤ start →
    level_loop xp1 (enumerate table start) l1
    ≤ level_loop xp2 (enumerate table start) l2.
Proof.
  induction table as [|t table IH]; intros start xp1 xp2 l1 l2 Hxp Hl Hs;
    cbn [enumerate level_loop]; [done|].
  apply IH; [done| |];
    destruct (Z.geb_spec xp1 t), (Z.geb_spec xp2 t); lia.
Qed.

Lemma level_from_xp_mono (xp1 xp2 : Z) :
  xp1 ≤ xp2 → level_from_xp xp1 ≤ level_from_xp xp2.
Proof.
  intros Hxp. unfold level_from_xp.
  apply Z.min_le_compat_r, level_loop_mono; lia.
Qed.

(** C3: for every non-negative xp the level lies in [1, 20], and the level
    does not decrease when xp grows. *)
Theorem level_from_xp_range_monotone (xp1 xp2 : Z) :
  0 ≤ xp1 → xp1 ≤ xp2 →
  1 ≤ level_from_xp xp1 ≤ 20 ∧ level_from_xp xp1 ≤ level_from_xp xp2.
Proof.
  intros _ Hle. split.
  - apply level_from_xp_bounds.
  - by apply level_from_xp_mono.
Qed.

Lemma level_from_xp_range_monotone_witness :
  1 ≤ level_from_xp 299 ≤ 20 ∧ level_from_xp 299 ≤ level_from_xp 300.
Proof. apply (level_from_xp_range_monotone 299 300); lia. Defined.

(** A property of every level of a range holds when a boolean check of it
    succeeds on the whole range. *)
Lemma range_check (P : Z → Prop) (chk : Z → bool) (lo len : Z) :
  (∀ L, chk L = true → P L) →
  forallb chk (seqZ lo len) = true →
  ∀ L, lo ≤ L < lo + len → P L.
Proof.
  intros Hchk Hall L HL. apply Hchk.
  rewrite forallb_forall in Hall. apply Hall.
  apply list_elem_of_In, elem_of_seqZ. lia.
Qed.

(** The table checked level by level: the threshold of level L is entry
    L - 1, it is at level L, and one xp below it is at level L - 1. *)
Lemma threshold_table (L : Z) :
  1 ≤ L ≤ 20 →
  ∃ t, XP_THRESHOLDS !! Z.to_nat (L - 1) = Some t ∧
       prev_threshold L = Ok t ∧
       level_from_xp t = L ∧
       (2 ≤ L → level_from_xp (t - 1) = L - 1).
Proof.
  intros HL. revert L HL.
  assert (∀ L, 1 ≤ L < 1 + 20 → ∃ t,
            XP_THRESHOLDS !! Z.to_nat (L - 1) = Some t ∧
            prev_threshold L = Ok t ∧ level_from_xp t = L ∧
            (2 ≤ L → level_from_xp (t - 1) = L - 1)) as Hall.
  { apply (range_check _ threshold_check); [|by vm_compute].
    intros L. unfold threshold_check.
    destruct (prev_threshold L) as [t|]; [|done].
    destruct (XP_THRESHOLDS !! Z.to_nat (L - 1)) as [t'|]; [|done].
    intros H. apply andb_prop in H as [H H3].
    apply andb_prop in H as [H1 H2].
    apply Z.eqb_eq in H1, H2. subst t'. exists t. repeat split; try done.
    intros HL2. apply orb_prop in H3 as [H3|H3].
    - apply Z.ltb_lt in H3. lia.
    - by apply Z.eqb_eq. }
  intros L HL. apply Hall. lia.
Qed.

(** C4: the threshold of level L, read from the 20-entry table, is at level
    L, and one xp below it is at level L - 1 (for L > 1). *)
Theorem level_at_threshold (L : Z) :
  1 ≤ L ≤ 20 →
  length XP_THRESHOLDS = 20%nat ∧
  ∃ t, XP_THRESHOLDS !! Z.to_nat (L - 1) = Some t ∧
       prev_threshold L = Ok t ∧
       level_from_xp t = L ∧
       (2 ≤ L → level_from_xp (t - 1) = L - 1).
Proof.
  intros HL. split; [done|]. by apply threshold_table.
Qed.

Lemma level_at_threshold_witness :
  length XP_THRESHOLDS = 20%nat ∧
  ∃ t, XP_THRESHOLDS !! Z.to_nat (5 - 1) = Some t ∧
       prev_threshold 5 = Ok t ∧
       level_from_xp t = 5 ∧
       (2 ≤ 5 → level_from_xp (t - 1) = 5 - 1).
Proof. apply (level_at_threshold 5). lia. Defined.

(** Below the last level both neighbouring thresholds exist. *)
Lemma thresholds_below_max (L : Z) :
  1 ≤ L ≤ 19 →
  ∃ low high, prev_threshold L = Ok low ∧ next_threshold L = Ok (Some high).
Proof.
  intros HL. revert L HL.
  assert (∀ L, 1 ≤ L < 1 + 19 → ∃ low high,
            prev_threshold L = Ok low ∧ next_threshold L = Ok (Some high))
    as Hall.
  { apply (range_check _ neighbours_check); [|by vm_compute].
    intros L. unfold neighbours_check.
    destruct (prev_threshold L) as [low|]; [|done].
    destruct (next_threshold L) as [[high|]|]; [|done..].
    eauto. }
  intros L HL. apply Hall. lia.
Qed.

Lemma next_threshold_max (L : Z) : 20 ≤ L → next_threshold L = Ok None.
Proof.
  intros HL. unfold next_threshold.
  destruct (Z.geb_spec L 20); [done|lia].
Qed.

(** [progress_in_level] and [remaining_to_next] never raise. *)
Lemma progress_in_level_ok (xp : Z) :
  ∃ cur need, progress_in_level xp = Ok (cur, need, level_from_xp xp)
              ∧ 0 ≤ cur ∧ 0 ≤ need.
Proof.
  unfold progress_in_level.
  pose proof (level_from_xp_bounds xp) as HL.
  destruct (Z.geb_spec (level_from_xp xp) 20) as [H20|H20].
  - exists 0, 0. replace (level_from_xp xp) with 20 by lia. done.
  - destruct (thresholds_below_max (level_from_xp xp)) as (low & high & Hl & Hh);
      [lia|].
    rewrite Hl, Hh. cbn. eexists _, _. split; [done|lia].
Qed.

Lemma remaining_to_next_ok (xp : Z) :
  ∃ rem, remaining_to_next xp = Ok rem.
Proof.
  unfold remaining_to_next.
  pose proof (level_from_xp_bounds xp) as HL.
  destruct (decide (level_from_xp xp = 20)) as [H20|H20].
  - rewrite next_threshold_max by lia. cbn. eauto.
  - destruct (thresholds_below_max (level_from_xp xp)) as (low & high & Hl & Hh);
      [lia|].
    rewrite Hh. cbn. eauto.
Qed.

(** C7: [progress_in_level] answers (0, 0, 20) exactly at level 20;
    [remaining_to_next] is [None] exactly at level 20, and otherwise it is
    the distance to the next threshold, clamped at 0. *)
Theorem progress_and_remaining_at_max (xp : Z) :
  0 ≤ xp →
  (progress_in_level xp = Ok (0, 0, 20) ↔ level_from_xp xp = 20) ∧
  (remaining_to_next xp = Ok None ↔ level_from_xp xp = 20) ∧
  (level_from_xp xp ≠ 20 →
   ∃ nxt, next_threshold (level_from_xp xp) = Ok (Some nxt) ∧
          remaining_to_next xp = Ok (Some (Z.max 0 (nxt - xp)))).
Proof.
  intros _.
  pose proof (level_from_xp_bounds xp) as HL.
  destruct (progress_in_level_ok xp) as (cur & need & Hp & _).
  destruct (decide (level_from_xp xp = 20)) as [H20|H20].
  - split; [|split].
    + split; [done|]. intros _. unfold progress_in_level.
      by destruct (Z.geb_spec (level_from_xp xp) 20); [|lia].
    + split; [done|]. intros _. unfold remaining_to_next.
      by rewrite next_threshold_max by lia.
    + done.
  - destruct (thresholds_below_max (level_from_xp xp)) as (low & high & Hl & Hh);
      [lia|].
    assert (remaining_to_next xp = Ok (Some (Z.max 0 (high - xp)))) as Hr.
    { unfold remaining_to_next. by rewrite Hh. }
    split; [|split].
    + split; [|done]. rewrite Hp. intros [= _ _ ?]. done.
    + split; [|done]. rewrite Hr. done.
    + intros _. eauto.
Qed.

Lemma progress_and_remaining_at_max_witness :
  (progress_in_level 400000 = Ok (0, 0, 20) ↔ level_from_xp 400000 = 20) ∧
  (remaining_to_next 400000 = Ok None ↔ level_from_xp 400000 = 20) ∧
  (level_from_xp 400000 ≠ 20 →
   ∃ nxt, next_threshold (level_from_xp 400000) = Ok (Some nxt) ∧
          remaining_to_next 400000 = Ok (Some (Z.max 0 (nxt - 400000)))).
Proof. apply (progress_and_remaining_at_max 400000). lia. Defined.

(** ** The record store *)

Lemma get_members_guild_bucket db guild_id gid :
  get_members (guild_bucket db guild_id) gid = get_members db gid.
Proof.
  unfold guild_bucket. destruct (db !! str guild_id) eqn:E; [done|].
  unfold get_members. destruct (decide (str guild_id = gid)) as [<-|Hne].
  - by rewrite lookup_insert_eq, E.
  - by rewrite lookup_insert_ne.
Qed.

Lemma guild_bucket_unknown db guild_id :
  db !! str guild_id = None →
  guild_bucket db guild_id !! str guild_id = Some {| members := ∅ |}.
Proof. intros E. unfold guild_bucket. rewrite E. apply lookup_insert_eq. Qed.

Lemma get_members_set_member db gid uid m gid' :
  get_members (set_member db gid uid m) gid'
  = if decide (gid = gid') then <[uid := m]> (get_members db gid)
    else get_members db gid'.
Proof.
  unfold set_member. unfold get_members at 1.
  case_decide as H; [subst; by rewrite lookup_insert_eq|].
  by rewrite lookup_insert_ne.
Qed.

Lemma get_member_set_member db gid uid m :
  get_member (set_member db gid uid m) gid uid = m.
Proof.
  unfold get_member. rewrite get_members_set_member.
  rewrite decide_True by done. by rewrite lookup_insert_eq.
Qed.

Lemma lookup_set_member db gid uid m gid' uid' :
  get_members (set_member db gid uid m) gid' !! uid'
  = if decide (gid = gid' ∧ uid = uid') then Some m
    else get_members db gid' !! uid'.
Proof.
  rewrite get_members_set_member.
  destruct (decide (gid = gid')) as [<-|Hg].
  - destruct (decide (uid = uid')) as [<-|Hu].
    + rewrite lookup_insert_eq. by rewrite decide_True.
    + rewrite lookup_insert_ne by done. rewrite decide_False; [done|]. intros []. done.
  - rewrite decide_False; [done|]. intros []. done.
Qed.

Lemma lookup_ensure_member db gid user_id gid' uid' :
  get_members (ensure_member db gid user_id) gid' !! uid'
  = match get_members db gid' !! uid' with
    | Some m => Some m
    | None => if decide (gid = gid' ∧ str user_id = uid') then Some {["xp" := 0]} else None
    end.
Proof.
  unfold ensure_member.
  destruct (get_members db gid !! str user_id) eqn:E.
  - destruct (get_members db gid' !! uid') eqn:E'; [done|].
    case_decide as H; [|done]. destruct H as [<- <-]. congruence.
  - rewrite lookup_set_member. case_decide as H.
    + destruct H as [<- <-]. by rewrite E.
    + by destruct (get_members db gid' !! uid').
Qed.

Lemma member_xp_insert m v : member_xp (<["xp" := v]> m) = v.
Proof. unfold member_xp. by rewrite lookup_insert_eq. Qed.






Lemma threshold_nonneg i t : py_getitem XP_THRESHOLDS i = Ok t → 0 ≤ t.
Proof.
  unfold py_getitem. case_match; [|done].
  destruct (XP_THRESHOLDS !! _) as [v|] eqn:E; [|done]. intros [= <-].
  assert (Forall (λ v, 0 ≤ v) XP_THRESHOLDS) as Hall
    by (repeat constructor; lia).
  rewrite Forall_lookup in Hall. by eapply Hall.
Qed.





(** Whatever [addxp_all] leaves on file is what its loop leaves after
    some list of ids: the stored ones, or none when it returns or fails
    before the loop. *)
Lemma addxp_all_file_loop fetch_member has_icon guild_id amount file :
  ∃ ids,
    file_after (addxp_all fetch_member has_icon guild_id amount file)
    = addxp_all_loop fetch_member guild_id amount ids file.
Proof.
  unfold addxp_all. destruct (amount =? 0); [by exists []|].
  cbn zeta.
  destruct ((map_to_list _).*1) as [|uid ids]; [by exists []|].
  destruct has_icon; cbn [make_embed file_after]; [by eexists|by exists []].
Qed.


Lemma status_file guild_id user_id file :
  file_after (status guild_id user_id file) = file.
Proof. unfold status. repeat case_match; done. Qed.

Lemma party_file lower fetch_member has_icon guild_id file :
  file_after (party lower fetch_member has_icon guild_id file) = file.
Proof. unfold party. by case_match. Qed.



Lemma get_member_lookup db gid uid m :
  get_members db gid !! uid = Some m → get_member db gid uid = m.
Proof. intros H. unfold get_member. by rewrite H. Qed.


Lemma xp_on_file_saved guild_id user_id db v :
  xp_on_file (save_db (set_member_xp db (str guild_id) (str user_id) v))
    guild_id user_id = v.
Proof.
  unfold xp_on_file, save_db, load_db, set_member_xp.
  by rewrite get_member_set_member, member_xp_insert.
Qed.

Lemma before_xp_on_file guild_id user_id file :
  member_xp
    (get_member
       (ensure_member (guild_bucket (load_db file) guild_id)
          (str guild_id) user_id)
       (str guild_id) (str user_id))
  = xp_on_file file guild_id user_id.
Proof.
  unfold xp_on_file, get_member. rewrite lookup_ensure_member.
  rewrite get_members_guild_bucket.
  destruct (get_members (load_db file) (str guild_id) !! str user_id);
    [done|].
  by rewrite decide_True.
Qed.

(** [add_xp_for_member] in terms of the xp on file: what it saves and what
    it returns. *)
Lemma add_xp_for_member_run guild_id user_id delta file :
  let x := xp_on_file file guild_id user_id in
  let new_xp := Z.max 0 (x + delta) in
  let r := add_xp_for_member guild_id user_id delta file in
  file_after r
  = save_db (set_member_xp
               (ensure_member (guild_bucket (load_db file) guild_id)
                  (str guild_id) user_id)
               (str guild_id) (str user_id) new_xp) ∧
  ∃ rem cur need,
    reply r
    = Ok {| add := delta; after_xp := new_xp;
            after_lvl := level_from_xp new_xp;
            leveled := bool_decide (level_from_xp new_xp > level_from_xp x);
            rem := rem; cur_in_level := cur; need_for_level := need |}.
Proof.
  intros x new_xp r. unfold r, add_xp_for_member. cbn [file_after reply].
  rewrite !before_xp_on_file. fold x new_xp. split; [done|].
  unfold set_member_xp. rewrite get_member_set_member, member_xp_insert.
  destruct (remaining_to_next_ok new_xp) as [rem ->].
  destruct (progress_in_level_ok new_xp) as (cur & need & -> & _).
  by exists rem, cur, need.
Qed.



(** The returned dict does not tell the level before the award.  Taking
    500 xp from a member with 0 xp (level 1) and from a member with 300 xp
    (level 2) returns the same dict, so nothing read from it is the level
    before in both cases. *)
Lemma award_before_level_counterexample :
  ¬ ∃ before_lvl : AddInfo → Z,
      ∀ x, x = 0 ∨ x = 300 →
           ∃ info,
             reply (add_xp_for_member 7 42 (-500) (demo_file x)) = Ok info ∧
             before_lvl info = level_from_xp x.
Proof.
  intros [before_lvl H].
  destruct (H 0) as (info0 & Hr0 & H0); [by left|].
  destruct (H 300) as (info1 & Hr1 & H1); [by right|].
  vm_compute in Hr0, Hr1. rewrite Hr0 in Hr1. injection Hr1 as <-.
  rewrite H0 in H1. by vm_compute in H1.
Qed.

(** The scenario of the specification: a default [join], then +300. *)
Example join_then_award :
  reply (add_xp_for_member 7 42 300 (file_after (join true 7 42 1 0 None)))
  = Ok {| add := 300; after_xp := 300; after_lvl := 2; leveled := true;
          rem := Some 600; cur_in_level := 0; need_for_level := 600 |}.
Proof. by vm_compute. Qed.

(** C5: [join] on a member who already has a record saves nothing and
    answers with the record's xp, level and remaining xp; on an absent
    member (and a level in 1..20) it saves a record with
    [xp = max xp (threshold of the level)] and changes no other record;
    with the defaults (level 1, xp 0) the member starts with 0 xp at
    level 1. *)
Theorem join_existing_or_new (guild_id target_id level xp : Z)
    (file : option (gmap string GroupRecord)) :
  let gid := str guild_id in
  let uid := str target_id in
  let r := join true guild_id target_id level xp file in
  (∀ m, get_members (load_db file) gid !! uid = Some m →
        file_after r = file ∧
        ∃ rem, remaining_to_next (member_xp m) = Ok rem ∧
               reply r = Ok (AlreadyInParty (member_xp m)
                               (level_from_xp (member_xp m)) rem)) ∧
  (get_members (load_db file) gid !! uid = None → 1 ≤ level ≤ 20 →
   ∃ t db rem,
     prev_threshold level = Ok t ∧
     file_after r = Some db ∧
     get_members db gid !! uid = Some {["xp" := Z.max xp t]} ∧
     (∀ gid' uid', ¬ (gid = gid' ∧ uid = uid') →
        get_members db gid' !! uid' = get_members (load_db file) gid' !! uid') ∧
     remaining_to_next (Z.max xp t) = Ok rem ∧
     reply r = Ok (Joined (Z.max xp t) (level_from_xp (Z.max xp t)) rem)) ∧
  (get_members (load_db file) gid !! uid = None → level = 1 → xp = 0 →
   xp_on_file (file_after r) guild_id target_id = 0 ∧ level_from_xp 0 = 1).
Proof.
  intros gid uid r.
  assert (∀ t, py_getitem XP_THRESHOLDS (level - 1) = Ok t →
     get_members (load_db file) gid !! uid = None →
     ∃ db rem,
     file_after r = Some db ∧
     get_members db gid !! uid = Some {["xp" := Z.max xp t]} ∧
     (∀ gid' uid', ¬ (gid = gid' ∧ uid = uid') →
        get_members db gid' !! uid' = get_members (load_db file) gid' !! uid') ∧
     remaining_to_next (Z.max xp t) = Ok rem ∧
     reply r = Ok (Joined (Z.max xp t) (level_from_xp (Z.max xp t)) rem))
    as Hnew.
  { intros t Ht Hnone. unfold r, join; cbn [negb].
    rewrite get_members_guild_bucket. fold gid uid. rewrite Hnone, Ht.
    replace (if xp <? t then t else xp) with (Z.max xp t)
      by (destruct (Z.ltb_spec xp t); lia).
    destruct (remaining_to_next_ok (Z.max xp t)) as [rem Hrem].
    eexists _, rem. cbn [file_after reply]. split; [done|].
    split; [by rewrite lookup_set_member, decide_True|].
    split; [|split; [done|by rewrite Hrem]].
    intros gid' uid' Hne.
    by rewrite lookup_set_member, decide_False, get_members_guild_bucket. }
  split; [|split].
  - intros m Hm. unfold r, join; cbn [negb].
    rewrite get_members_guild_bucket. fold gid uid. rewrite Hm.
    cbn [file_after reply]. split; [done|].
    destruct (remaining_to_next_ok (member_xp m)) as [rem Hrem].
    exists rem. by rewrite Hrem.
  - intros Hnone HL.
    destruct (threshold_table level HL) as (t & _ & Ht & _).
    destruct (Hnew t Ht Hnone) as (db & rem & ?).
    exists t, db, rem. by split.
  - intros Hnone -> ->.
    destruct (Hnew 0) as (db & rem & Hf & Hl & _); [done..|].
    split; [|done]. rewrite Hf. unfold xp_on_file; cbn.
    fold gid uid. rewrite (get_member_lookup _ _ _ _ Hl). done.
Qed.

(** C6: for a level L in 1..20, [setlevel] by an administrator leaves the
    member with exactly the threshold of L (6500 for L = 5), whatever the
    xp was before, and that xp is at level L.  The xp is saved before the
    answer is built: the answer shows L and the threshold when the guild
    has an icon, and building it raises [AttributeError] when it has none. *)
Theorem setlevel_snaps_to_threshold (has_icon : bool) (guild_id user_id L : Z)
    (file : option (gmap string GroupRecord)) :
  1 ≤ L ≤ 20 →
  let r := setlevel true has_icon guild_id user_id L file in
  ∃ t, prev_threshold L = Ok t ∧
       xp_on_file (file_after r) guild_id user_id = t ∧
       level_from_xp t = L ∧
       reply r = (if has_icon then Ok (LevelSet L t)
                  else Raise AttributeError) ∧
       (L = 5 → t = 6500).
Proof.
  intros HL r.
  destruct (threshold_table L HL) as (t & _ & Ht & Hlvl & _).
  exists t. split; [done|].
  assert (xp_on_file (file_after r) guild_id user_id = t) as Hxp.
  { unfold r, setlevel; cbn [negb]. unfold prev_threshold in Ht. rewrite Ht.
    unfold xp_on_file; cbn. unfold set_member_xp.
    by rewrite get_member_set_member, member_xp_insert. }
  split; [done|]. split; [done|]. split.
  - unfold r, setlevel; cbn [negb]. unfold prev_threshold in Ht. rewrite Ht.
    cbn [reply]. unfold set_member_xp.
    rewrite get_member_set_member, member_xp_insert.
    destruct (progress_in_level_ok t) as (cur & need & -> & _).
    destruct (remaining_to_next_ok t) as [rem ->]. by destruct has_icon.
  - intros ->. by injection Ht as <-.
Qed.

(** C10: [status] and [party] leave [DATA_FILE] as it was, although for an
    unknown guild their in-memory [db] holds a fresh empty bucket. *)
Theorem read_only_commands_do_not_save (lower : string → string)
    (fetch_member : string → option (Z * string)) (has_icon : bool)
    (guild_id user_id : Z) (file : option (gmap string GroupRecord)) :
  file_after (status guild_id user_id file) = file ∧
  file_after (party lower fetch_member has_icon guild_id file) = file ∧
  (load_db file !! str guild_id = None →
   ∃ db, db_local (status guild_id user_id file) = Some db ∧
         db_local (party lower fetch_member has_icon guild_id file) = Some db ∧
         db !! str guild_id = Some {| members := ∅ |}).
Proof.
  split; [apply status_file|]. split; [apply party_file|].
  intros Hunknown. exists (guild_bucket (load_db file) guild_id).
  split; [|split].
  - unfold status. repeat case_match; done.
  - unfold party. by case_match.
  - by apply guild_bucket_unknown.
Qed.

(** ** Tuple order and the roster *)

#[global] Instance Z_compare_total : TotalCmp Z.compare.
Proof.
  split.
  - intros x y. apply Z.compare_eq.
  - apply Z.compare_refl.
  - intros x y. apply Z.compare_antisym.
  - intros x y z. rewrite !Z.compare_lt_iff. lia.
Qed.

Lemma ascii_compare_trans a b c :
  Ascii.compare a b = Lt → Ascii.compare b c = Lt → Ascii.compare a c = Lt.
Proof. unfold Ascii.compare. rewrite !N.compare_lt_iff. lia. Qed.

Lemma ascii_compare_refl a : Ascii.compare a a = Eq.
Proof. unfold Ascii.compare. apply N.compare_refl. Qed.

Lemma string_compare_refl s : String.compare s s = Eq.
Proof.
  induction s as [|a s IH]; [done|]. cbn. by rewrite ascii_compare_refl.
Qed.

Lemma string_compare_trans s1 : ∀ s2 s3,
  String.compare s1 s2 = Lt → String.compare s2 s3 = Lt →
  String.compare s1 s3 = Lt.
Proof.
  induction s1 as [|a s1 IH]; intros [|b s2] [|c s3]; cbn; try done.
  destruct (Ascii.compare a b) eqn:Hab, (Ascii.compare b c) eqn:Hbc;
    try done; intros H1 H2.
  - apply Ascii.compare_eq_iff in Hab as ->. rewrite Hbc. eauto.
  - apply Ascii.compare_eq_iff in Hab as ->. by rewrite Hbc.
  - apply Ascii.compare_eq_iff in Hbc as <-. by rewrite Hab.
  - by rewrite (ascii_compare_trans a b c).
Qed.

#[global] Instance string_compare_total : TotalCmp String.compare.
Proof.
  split.
  - apply String.compare_eq_iff.
  - apply string_compare_refl.
  - intros x y. apply String.compare_antisym.
  - intros x y z. apply string_compare_trans.
Qed.

#[global] Instance pair_compare_total {A B : Type}
    (cmpA : A → A → comparison) (cmpB : B → B → comparison)
    `{!TotalCmp cmpA, !TotalCmp cmpB} :
  TotalCmp (pair_compare cmpA cmpB).
Proof.
  split; unfold pair_compare, lex.
  - intros [a b] [a' b']; cbn.
    destruct (cmpA a a') eqn:Ha; try done.
    intros Hb. apply cmp_eq in Ha, Hb. by subst.
  - intros [a b]; cbn. by rewrite !cmp_refl.
  - intros [a b] [a' b']; cbn.
    rewrite (cmp_antisym (cmp:=cmpA) a a'), (cmp_antisym (cmp:=cmpB) b b').
    by destruct (cmpA a a').
  - intros [a b] [a' b'] [a'' b'']; cbn.
    destruct (cmpA a a') eqn:H1, (cmpA a' a'') eqn:H2; try done.
    + apply cmp_eq in H1, H2. subst. rewrite cmp_refl. apply cmp_trans.
    + apply cmp_eq in H1. subst. by rewrite H2.
    + apply cmp_eq in H2. subst. by rewrite H1.
    + by rewrite (cmp_trans (cmp:=cmpA) a a' a'').
Qed.

#[global] Instance row_compare_total : TotalCmp row_compare.
Proof. unfold row_compare. apply _. Qed.

Section cmp_le.
Context {A : Type} (cmp : A → A → comparison) `{!TotalCmp cmp}.

#[global] Instance cmp_le_total : Total (cmp_le cmp).
Proof.
  intros x y. unfold cmp_le. rewrite (cmp_antisym (cmp:=cmp) y x).
  destruct (cmp y x); cbn; auto.
Qed.

#[global] Instance cmp_le_trans : Transitive (cmp_le cmp).
Proof.
  intros x y z. unfold cmp_le. intros Hxy Hyz Hzx.
  destruct (cmp y x) eqn:E1; [| done |].
  - apply cmp_eq in E1. by subst.
  - destruct (cmp z y) eqn:E2; [| done |].
    + apply cmp_eq in E2. subst. congruence.
    + assert (cmp x y = Lt) as H1
        by (rewrite (cmp_antisym (cmp:=cmp) y x), E1; done).
      assert (cmp y z = Lt) as H2
        by (rewrite (cmp_antisym (cmp:=cmp) z y), E2; done).
      pose proof (cmp_trans _ _ _ H1 H2) as H3.
      rewrite (cmp_antisym (cmp:=cmp) x z), H3 in Hzx. done.
Qed.

End cmp_le.

Lemma StronglySorted_fmap_elem {A B : Type} (f : A → B) (R1 : relation A)
    (R2 : relation B) (l : list A) :
  (∀ x y, x ∈ l → y ∈ l → R1 x y → R2 (f x) (f y)) →
  StronglySorted R1 l → StronglySorted R2 (f <$> l).
Proof.
  intros Hf Hs. induction Hs as [|x l Hs IH Hx]; cbn; constructor.
  - apply IH. intros y z Hy Hz. apply Hf; by constructor.
  - apply Forall_fmap, Forall_forall. intros y Hy. 
    rewrite Forall_forall in Hx. apply Hf; [by constructor|by constructor|auto].
Qed.

Lemma mapM_pyres_ok {A B : Type} (f : A → pyres B) (P : A → B → Prop)
    (l : list A) :
  (∀ x, ∃ y, f x = Ok y ∧ P x y) →
  ∃ ys, mapM_pyres f l = Ok ys ∧ Forall2 P l ys.
Proof.
  intros Hf. induction l as [|x l (ys & Hys & HP)]; cbn.
  - eexists. split; [done|constructor].
  - destruct (Hf x) as (y & Hy & Hxy). rewrite Hy, Hys. cbn.
    eexists. split; [done|by constructor].
Qed.

Section roster_properties.
Variable lower : string → string.
Variable fetch_member : string → option (Z * string).

Lemma party_field_ok row :
  ∃ f, party_field row = Ok f ∧ f.1 = row_entry row.
Proof.
  destruct row as [[[[[a b] c] xp] lvl] name]. cbn.
  destruct (remaining_to_next_ok xp) as [rem ->]. cbn. eauto.
Qed.

Lemma row_entry_sortable_row kv :
  row_entry (sortable_row lower fetch_member kv.1 kv.2)
  = roster_entry fetch_member kv.
Proof. done. Qed.

Lemma sortable_rows_ordered kv1 kv2 :
  cmp_le row_compare (sortable_row lower fetch_member kv1.1 kv1.2)
                     (sortable_row lower fetch_member kv2.1 kv2.2) →
  roster_order lower (roster_entry fetch_member kv1)
                     (roster_entry fetch_member kv2).
Proof.
  unfold cmp_le, row_compare, pair_compare, sortable_row, roster_entry,
    roster_order, lex; cbn.
  set (x1 := member_xp kv1.2). set (x2 := member_xp kv2.2).
  set (n1 := display_name fetch_member kv1.1).
  set (n2 := display_name fetch_member kv2.1).
  destruct (Z.compare_spec (- level_from_xp x2) (- level_from_xp x1));
    [|done|left; lia].
  destruct (Z.compare_spec (- x2) (- x1)); [|done|right; split; [lia|left; lia]].
  intros Hn. right. split; [lia|]. right. split; [lia|].
  rewrite String.compare_antisym.
  destruct (String.compare (lower n2) (lower n1)); cbn; done.
Qed.

Lemma party_sortable_entries (members : gmap string (gmap string Z)) :
  row_entry <$> party_sortable lower fetch_member members
    ≡ₚ roster_entry fetch_member <$> map_to_list members ∧
  StronglySorted (roster_order lower)
    (row_entry <$> party_sortable lower fetch_member members).
Proof.
  unfold party_sortable, list_sort.
  set (rows := (λ kv, sortable_row lower fetch_member kv.1 kv.2)
                 <$> map_to_list members).
  split.
  - rewrite merge_sort_Permutation. unfold rows.
    rewrite <- list_fmap_compose. done.
  - apply (StronglySorted_fmap_elem _ (cmp_le row_compare)).
    + intros x y Hx Hy.
      rewrite merge_sort_Permutation in Hx, Hy.
      apply list_elem_of_fmap in Hx as (kv1 & -> & _).
      apply list_elem_of_fmap in Hy as (kv2 & -> & _).
      apply sortable_rows_ordered.
    + apply StronglySorted_merge_sort; apply _.
Qed.

(** C9: the sorted rows of [party] hold every member of the group exactly
    once, ordered by descending level, then descending xp, then ascending
    lower-cased display name.  They are what the command lists, one field
    per row; an empty group is answered without a list, and for a guild
    without an icon [make_embed] raises before the first field is added. *)
Theorem party_lists_all_members_sorted (has_icon : bool) (guild_id : Z)
    (file : option (gmap string GroupRecord)) :
  let members := get_members (load_db file) (str guild_id) in
  let sortable := party_sortable lower fetch_member members in
  let r := party lower fetch_member has_icon guild_id file in
  row_entry <$> sortable
    ≡ₚ roster_entry fetch_member <$> map_to_list members ∧
  StronglySorted (roster_order lower) (row_entry <$> sortable) ∧
  (members = ∅ → reply r = Ok PartyEmpty) ∧
  (members ≠ ∅ → has_icon = true →
   ∃ fields,
     reply r = Ok (PartyList fields) ∧
     fst <$> fields = row_entry <$> sortable) ∧
  (members ≠ ∅ → has_icon = false → reply r = Raise AttributeError).
Proof.
  intros members sortable r.
  destruct (party_sortable_entries members) as [Hperm Hsorted].
  split; [done|]. split; [done|]. unfold r, party.
  rewrite get_members_guild_bucket. fold members.
  split; [|split]; intros Hm.
  - by rewrite decide_True.
  - intros ->. rewrite decide_False by done. cbn [reply make_embed].
    destruct (mapM_pyres_ok party_field (λ row f, f.1 = row_entry row)
                (party_sortable lower fetch_member members) party_field_ok)
      as (fields & Hfields & HF).
    exists fields. split; [cbn; by rewrite Hfields|].
    unfold sortable. clear Hfields Hperm Hsorted.
    induction HF as [|row f rows fs Hf HF IH]; [done|].
    cbn. by rewrite Hf, IH.
  - intros ->. by rewrite decide_False by done.
Qed.
End roster_properties.

(** ** Concurrent awards *)

Lemma committed_insert_same (ts : list Task) (i : nat) (t t' : Task) :
  ts !! i = Some t → is_committed t' = is_committed t → t_add t' = t_add t →
  committed (<[i := t']> ts) = committed ts.
Proof.
  revert i. induction ts as [|u ts IH]; intros [|i]; cbn; try done.
  - intros [= ->] -> ->. done.
  - intros H H1 H2. destruct (is_committed u); [f_equal|]; by apply (IH i).
Qed.

Lemma committed_insert_new (ts : list Task) (i : nat) (t t' : Task) :
  ts !! i = Some t → is_committed t = false → is_committed t' = true →
  committed (<[i := t']> ts) ≡ₚ committed ts ++ [t_add t'].
Proof.
  revert i. induction ts as [|u ts IH]; intros [|i]; cbn; try done.
  - intros [= ->] -> ->. by rewrite (comm (++) _ [_]).
  - intros H H1 H2. pose proof (IH i H H1 H2) as IH'.
    destruct (is_committed u); [by constructor|done].
Qed.

Lemma committed_all_done (ts : list Task) :
  forallb is_done ts = true → committed ts = t_add <$> ts.
Proof.
  induction ts as [|t ts IH]; [done|]. cbn.
  intros [Ht Hts]%andb_prop. rewrite IH by done.
  unfold is_done in Ht. unfold is_committed. by destruct (t_pc t).
Qed.

Lemma fmap_set_pc (s : Sys) (i : nat) (t : Task) (p : pc) :
  tasks s !! i = Some t → t_add <$> set_pc s i t p = t_add <$> tasks s.
Proof.
  intros H. unfold set_pc. rewrite list_fmap_insert. cbn.
  apply list_insert_id. by rewrite list_lookup_fmap, H.
Qed.

Lemma award_seq_snoc x log d :
  award_seq x (log ++ [d]) = Z.max 0 (award_seq x log + d).
Proof. unfold award_seq. by rewrite foldl_app. Qed.

Lemma award_seq_lower x ds :
  0 ≤ x → Z.max 0 (x + sum_list ds) ≤ award_seq x ds.
Proof.
  revert x. induction ds as [|d ds IH]; intros x Hx; cbn; [lia|].
  etrans; [|apply IH; lia]. unfold sum_list. lia.
Qed.

Lemma award_seq_nonneg x ds :
  0 ≤ x → Forall (λ d, 0 ≤ d) ds → award_seq x ds = Z.max 0 (x + sum_list ds).
Proof.
  revert x. induction ds as [|d ds IH]; intros x Hx Hds; cbn; [lia|].
  inversion_clear Hds as [|? ? Hd Hds'].
  rewrite IH by (done || lia). unfold sum_list. lia.
Qed.

Lemma sum_list_nonpos ds : Forall (λ d, d ≤ 0) ds → sum_list ds ≤ 0.
Proof. induction 1; cbn; [done|]. unfold sum_list in *. lia. Qed.

Lemma award_seq_nonpos x ds :
  0 ≤ x → Forall (λ d, d ≤ 0) ds → award_seq x ds = Z.max 0 (x + sum_list ds).
Proof.
  revert x. induction ds as [|d ds IH]; intros x Hx Hds; cbn; [lia|].
  inversion_clear Hds as [|? ? Hd Hds'].
  rewrite IH by (done || lia).
  pose proof (sum_list_nonpos ds Hds'). unfold sum_list in *. lia.
Qed.

#[global] Instance sum_list_perm : Proper ((≡ₚ) ==> (=)) sum_list.
Proof.
  intros l1 l2 H. unfold sum_list.
  induction H; cbn; lia.
Qed.


Section concurrent_properties.
Variables guild_id user_id : Z.

Lemma task_ok_other (s s' : Sys) (i j : nat) (t : Task) :
  sys_lock s = Some i ∨ sys_lock s = None →
  sys_lock s' = Some i ∨ sys_lock s' = None →
  j ≠ i →
  task_ok guild_id user_id s j t → task_ok guild_id user_id s' j t.
Proof.
  intros Hs Hs' Hne. unfold task_ok.
  destruct (t_pc t); intros H;
    repeat match goal with
           | H : _ ∧ _ |- _ => destruct H as [H ?]
           | H : _ ∨ _ |- _ => destruct H as [H|H]
           end; congruence.
Qed.

Lemma task_ok_same (s s' : Sys) (j : nat) (t : Task) :
  sys_lock s' = sys_lock s → sys_file s' = sys_file s →
  task_ok guild_id user_id s j t → task_ok guild_id user_id s' j t.
Proof. unfold task_ok. by intros -> ->. Qed.

Lemma task_step_inv (x0 : Z) (ds : list Z) (s s' : Sys) (i : nat)
    (log ev : list Z) :
  sys_inv guild_id user_id x0 ds s log →
  task_step guild_id user_id s i = Some (s', ev) →
  sys_inv guild_id user_id x0 ds s' (log ++ ev).
Proof.
  intros (Hok & Hds & Hxp & Hlog). unfold task_step.
  destruct (tasks s !! i) as [t|] eqn:Ht; [|done]. cbn.
  pose proof (Hok i t Ht) as Hi. unfold task_ok in Hi.
  assert (∀ fl lk p,
            let s1 := {| sys_file := fl; sys_lock := lk;
                         tasks := set_pc s i t p |} in
            sys_lock s = Some i ∨ sys_lock s = None →
            lk = Some i ∨ lk = None →
            task_ok guild_id user_id s1 i {| t_add := t_add t; t_pc := p |} →
            ∀ j t', tasks s1 !! j = Some t' →
                    task_ok guild_id user_id s1 j t') as Hothers.
  { intros fl lk p s1 Hl Hl1 Hnew j t'. unfold s1 at 1, set_pc; cbn.
    intros [(-> & <- & _)|(Hne & Hj)]%list_lookup_insert_Some; [done|].
    apply (task_ok_other s s1 i); auto. }
  assert (∀ p, is_committed {| t_add := t_add t; t_pc := p |}
               = is_committed t →
               committed (set_pc s i t p) = committed (tasks s)) as Hsame.
  { intros p Hp. unfold set_pc. by apply committed_insert_same with t. }
  destruct (t_pc t) as [| |db bx bl|bl ax al|bl ax al|res] eqn:Hpc.
  - destruct (sys_lock s) eqn:Hl; [done|]. intros [= <- <-].
    rewrite app_nil_r. split; [|split; [|split]].
    + apply Hothers; auto; done.
    + cbn. by rewrite fmap_set_pc.
    + done.
    + cbn. rewrite Hsame; [done|]. unfold is_committed; cbn. by rewrite Hpc.
  - intros [= <- <-]. rewrite app_nil_r. split; [|split; [|split]].
    + apply Hothers; auto. split; [done|]. cbn. apply before_xp_on_file.
    + cbn. by rewrite fmap_set_pc.
    + done.
    + cbn. rewrite Hsame; [done|]. unfold is_committed; cbn. by rewrite Hpc.
  - destruct Hi as [Hl Hbx]. intros [= <- <-].
    split; [|split; [|split]].
    + apply Hothers; auto; done.
    + cbn. by rewrite fmap_set_pc.
    + cbn. rewrite xp_on_file_saved, award_seq_snoc, Hbx, Hxp. done.
    + cbn. unfold set_pc.
      rewrite committed_insert_new with (t := t); [|done|..].
      * by rewrite Hlog.
      * unfold is_committed. by rewrite Hpc.
      * done.
  - intros [= <- <-]. rewrite app_nil_r. split; [|split; [|split]].
    + apply Hothers; auto; done.
    + cbn. by rewrite fmap_set_pc.
    + done.
    + cbn. rewrite Hsame; [done|]. unfold is_committed; cbn. by rewrite Hpc.
  - intros [= <- <-]. rewrite app_nil_r. split; [|split; [|split]].
    + intros j t'. unfold set_pc; cbn.
      intros [(-> & <- & _)|(Hne & Hj)]%list_lookup_insert_Some; [done|].
      by apply (task_ok_same s), Hok.
    + cbn. by rewrite fmap_set_pc.
    + done.
    + cbn. rewrite Hsame; [done|]. unfold is_committed; cbn. by rewrite Hpc.
  - done.
Qed.

Lemma run_inv (x0 : Z) (ds : list Z) (sched : list nat) :
  ∀ (s s' : Sys) (log evs : list Z),
    sys_inv guild_id user_id x0 ds s log →
    run guild_id user_id s sched = Some (s', evs) →
    sys_inv guild_id user_id x0 ds s' (log ++ evs).
Proof.
  induction sched as [|i sched IH]; intros s s' log evs Hinv; cbn.
  - intros [= <- <-]. by rewrite app_nil_r.
  - destruct (task_step guild_id user_id s i) as [[s1 ev]|] eqn:Hstep;
      [|done]. cbn.
    destruct (run guild_id user_id s1 sched) as [[s2 evs']|] eqn:Hrun;
      [|done]. cbn.
    intros [= <- <-]. rewrite app_assoc.
    eapply IH; [|done]. by eapply task_step_inv.
Qed.

Lemma init_sys_inv (file : option (gmap string GroupRecord)) (ds : list Z) :
  sys_inv guild_id user_id (xp_on_file file guild_id user_id) ds
    (init_sys file ds) [].
Proof.
  split; [|split; [|split]]; cbn.
  - intros i t. rewrite list_lookup_fmap.
    destruct (ds !! i); [|done]. intros [= <-]. done.
  - rewrite <- list_fmap_compose. apply list_fmap_id.
  - done.
  - induction ds; [done|]. done.
Qed.

(** C2 (amended): whatever the schedule, the calls commit one at a time;
    the xp on file at the end is the clamped updates applied in commit
    order, a permutation of the deltas.  It is never below
    [max 0 (initial + sum)], and equals it when no two deltas have
    opposite signs. *)
Theorem concurrent_awards_serialize (file : option (gmap string GroupRecord))
    (ds : list Z) (sched : list nat) (s' : Sys) (log : list Z) :
  0 ≤ xp_on_file file guild_id user_id →
  run guild_id user_id (init_sys file ds) sched = Some (s', log) →
  all_done s' = true →
  let x0 := xp_on_file file guild_id user_id in
  let x := xp_on_file (sys_file s') guild_id user_id in
  log ≡ₚ ds ∧
  x = award_seq x0 log ∧
  Z.max 0 (x0 + sum_list ds) ≤ x ∧
  (Forall (λ d, 0 ≤ d) ds ∨ Forall (λ d, d ≤ 0) ds →
   x = Z.max 0 (x0 + sum_list ds)).
Proof.
  intros Hx0 Hrun Hdone x0 x.
  pose proof (run_inv x0 ds sched _ _ _ _ (init_sys_inv file ds) Hrun)
    as (_ & Hds & Hxp & Hlog).
  cbn in Hxp, Hlog. unfold all_done in Hdone.
  rewrite committed_all_done, Hds in Hlog by done.
  fold x in Hxp. split; [done|]. split; [done|]. split.
  - rewrite Hxp, <- Hlog. by apply award_seq_lower.
  - rewrite Hxp, <- !Hlog. intros [H|H].
    + by apply award_seq_nonneg.
    + by apply award_seq_nonpos.
Qed.
End concurrent_properties.

Section sequential_runs.
Variables guild_id user_id : Z.

(** The step function on a state whose [i]-th call is spelled out. *)
Lemma task_step_at (fl : option (gmap string GroupRecord)) (lk : option nat)
    (ts : list Task) (i : nat) (d : Z) (p : pc) :
  (i < length ts)%nat →
  let at_pc q := <[i := {| t_add := d; t_pc := q |}]> ts in
  task_step guild_id user_id
    {| sys_file := fl; sys_lock := lk; tasks := at_pc p |} i
  = match p with
    | Waiting =>
        match lk with
        | Some _ => None
        | None =>
            Some ({| sys_file := fl; sys_lock := Some i;
                     tasks := at_pc Locked |}, [])
        end
    | Locked =>
        let db := ensure_member (guild_bucket (load_db fl) guild_id)
                    (str guild_id) user_id in
        let before_xp :=
          member_xp (get_member db (str guild_id) (str user_id)) in
        Some ({| sys_file := fl; sys_lock := lk;
                 tasks := at_pc (Loaded db before_xp
                                   (level_from_xp before_xp)) |}, [])
    | Loaded db before_xp before_lvl =>
        let db := set_member_xp db (str guild_id) (str user_id)
                    (Z.max 0 (before_xp + d)) in
        let after_xp :=
          member_xp (get_member db (str guild_id) (str user_id)) in
        Some ({| sys_file := save_db db; sys_lock := lk;
                 tasks := at_pc (Saved before_lvl after_xp
                                   (level_from_xp after_xp)) |}, [d])
    | Saved before_lvl after_xp after_lvl =>
        Some ({| sys_file := fl; sys_lock := None;
                 tasks := at_pc (Released before_lvl after_xp after_lvl) |},
              [])
    | Released before_lvl after_xp after_lvl =>
        Some ({| sys_file := fl; sys_lock := lk;
                 tasks :=
                   at_pc (Done
                     (rem ← remaining_to_next after_xp;
                      p ← progress_in_level after_xp;
                      Ok {| add := d; after_xp := after_xp;
                            after_lvl := after_lvl;
                            leveled := bool_decide (after_lvl > before_lvl);
                            rem := rem; cur_in_level := p.1.1;
                            need_for_level := p.1.2 |})) |}, [])
    | Done _ => None
    end.
Proof.
  intros Hi at_pc. unfold task_step, at_pc; cbn.
  rewrite list_lookup_insert_eq by done. cbn.
  destruct p; try destruct lk; try done; unfold set_pc; cbn;
    by rewrite list_insert_insert_eq.
Qed.

(** One call run alone, from start to return, does what
    [add_xp_for_member] does to the file and returns what it returns. *)
Lemma run_one_call (fl : option (gmap string GroupRecord)) (ts : list Task)
    (i : nat) (d : Z) :
  ts !! i = Some {| t_add := d; t_pc := Waiting |} →
  let r := add_xp_for_member guild_id user_id d fl in
  ∀ sched,
    run guild_id user_id {| sys_file := fl; sys_lock := None; tasks := ts |}
      ([i; i; i; i; i] ++ sched)
    = '(s, evs) ← run guild_id user_id
                    {| sys_file := file_after r; sys_lock := None;
                       tasks := <[i := {| t_add := d;
                                          t_pc := Done (reply r) |}]> ts |}
                    sched;
      Some (s, d :: evs).
Proof.
  intros Ht r sched.
  assert (i < length ts)%nat as Hi by (by eapply lookup_lt_Some).
  rewrite <- (list_insert_id ts i _ Ht) at 1.
  cbn [run app].
  rewrite task_step_at by done. cbn -[task_step run].
  rewrite task_step_at by done. cbn -[task_step run].
  rewrite task_step_at by done. cbn -[task_step run].
  rewrite task_step_at by done. cbn -[task_step run].
  rewrite task_step_at by done. cbn -[task_step run].
  unfold r, add_xp_for_member; cbn [file_after reply].
  by destruct (run _ _ _ _) as [[s evs]|].
Qed.
End sequential_runs.

Section sequential_all.
Variables guild_id user_id : Z.

Lemma run_sequential (ds : list Z) :
  ∀ (pre : list Task) (fl : option (gmap string GroupRecord)),
    forallb is_done pre = true →
    ∃ s',
      run guild_id user_id
        {| sys_file := fl; sys_lock := None;
           tasks := pre ++ ((λ d, {| t_add := d; t_pc := Waiting |}) <$> ds) |}
        (sequential (length pre) (length ds))
      = Some (s', ds) ∧
      all_done s' = true ∧
      sys_file s'
      = foldl (λ f d, file_after (add_xp_for_member guild_id user_id d f))
          fl ds.
Proof.
  induction ds as [|d ds IH]; intros pre fl Hpre.
  - cbn. eexists. split; [done|]. split; [|done].
    unfold all_done; cbn. by rewrite app_nil_r.
  - cbn [length sequential fmap list_fmap foldl].
    rewrite (run_one_call guild_id user_id _ _ _ d)
      by (by rewrite list_lookup_middle).
    rewrite insert_app_r_alt, Nat.sub_diag by done. cbn [insert list_insert].
    rewrite (cons_middle _ pre), app_assoc.
    destruct (IH (pre ++ [{| t_add := d;
                             t_pc := Done (reply (add_xp_for_member guild_id
                                                    user_id d fl)) |}])
                (file_after (add_xp_for_member guild_id user_id d fl)))
      as (s' & Hrun & Hdone & Hfile).
    { rewrite forallb_app, Hpre. done. }
    rewrite length_app, Nat.add_1_r in Hrun. 
    exists s'. split; [|done]. 
    change (list_fmap Z Task ?f ds) with (f <$> ds).
    by rewrite Hrun.
Qed.

(** Every batch of calls can run to completion. *)
Lemma sequential_completes (file : option (gmap string GroupRecord))
    (ds : list Z) :
  ∃ s',
    run guild_id user_id (init_sys file ds) (sequential 0 (length ds))
    = Some (s', ds) ∧
    all_done s' = true ∧
    sys_file s'
    = foldl (λ f d, file_after (add_xp_for_member guild_id user_id d f))
        file ds.
Proof. by apply (run_sequential ds []). Qed.
End sequential_all.

(** Two calls with deltas -500 and +300 on a member with 0 xp: the first
    is clamped to 0, the second then gives 300, while
    [max 0 (0 - 500 + 300)] is 0. *)
Lemma concurrent_awards_sum_counterexample :
  ∃ s' log,
    run 7 42 (init_sys (demo_file 0) [-500; 300])
      [0; 0; 0; 0; 1; 0; 1; 1; 1; 1]%nat
    = Some (s', log) ∧
    all_done s' = true ∧
    xp_on_file (sys_file s') 7 42 = 300 ∧
    Z.max 0 (xp_on_file (demo_file 0) 7 42 + sum_list [-500; 300]) = 0.
Proof.
  eexists _, _. split; [vm_compute; reflexivity|]. by vm_compute.
Qed.

Lemma concurrent_awards_serialize_witness :
  ∃ s' log,
    run 7 42 (init_sys (demo_file 100) [-500; -30])
      [1; 1; 1; 1; 0; 1; 0; 0; 0; 0]%nat
    = Some (s', log) ∧
    xp_on_file (sys_file s') 7 42
    = Z.max 0 (xp_on_file (demo_file 100) 7 42 + sum_list [-500; -30]).
Proof.
  destruct (run 7 42 (init_sys (demo_file 100) [-500; -30])
              [1; 1; 1; 1; 0; 1; 0; 0; 0; 0]%nat) as [[s' log]|] eqn:Hrun;
    [|by vm_compute in Hrun].
  exists s', log. split; [done|].
  apply (concurrent_awards_serialize 7 42 (demo_file 100) [-500; -30]
           [1; 1; 1; 1; 0; 1; 0; 0; 0; 0]%nat s' log).
  - by vm_compute.
  - done.
  - vm_compute in Hrun. injection Hrun as <- <-. by vm_compute.
  - right. repeat constructor; lia.
Defined.

(** ** Binary64 bounds and the progress bar *)

Lemma digits2_pos_size (p : positive) : digits2_pos p = Pos.size p.
Proof. induction p; cbn; congruence. Qed.

Lemma Zdigits2_log2 (m : Z) : 0 < m → Zdigits2 m = Z.log2 m + 1.
Proof.
  destruct m as [|p|p]; try lia. intros _. cbn [Zdigits2].
  rewrite digits2_pos_size. destruct p; cbn; lia.
Qed.

Lemma Zdigits2_nonneg (m : Z) : 0 ≤ Zdigits2 m.
Proof. destruct m; cbn; lia. Qed.

Lemma Zdigits2_pos (m : Z) : 0 < m → 1 ≤ Zdigits2 m.
Proof.
  intros H. rewrite Zdigits2_log2 by done. pose proof (Z.log2_nonneg m). lia.
Qed.

Lemma Zdigits2_mono (a b : Z) : 0 ≤ a ≤ b → Zdigits2 a ≤ Zdigits2 b.
Proof.
  intros [Ha Hab]. destruct (decide (a = 0)) as [->|]; [apply Zdigits2_nonneg|].
  rewrite !Zdigits2_log2 by lia. pose proof (Z.log2_le_mono a b Hab). lia.
Qed.

Lemma Zdigits2_succ (m : Z) : 0 ≤ m → Zdigits2 (m + 1) ≤ Zdigits2 m + 1.
Proof.
  intros Hm. destruct (decide (m = 0)) as [->|]; [done|].
  rewrite !Zdigits2_log2 by lia.
  pose proof (Z.log2_succ_le m). unfold Z.succ in *. lia.
Qed.

Lemma Zdigits2_lt_pow2 (m k : Z) : 0 ≤ k → 0 ≤ m < 2 ^ k → Zdigits2 m ≤ k.
Proof.
  intros Hk [Hm Hlt]. destruct (decide (m = 0)) as [->|]; [done|].
  rewrite Zdigits2_log2 by lia.
  assert (Z.log2 m < k) by (apply Z.log2_lt_pow2; lia). lia.
Qed.

Lemma Zdigits2_shiftl (m s : Z) :
  0 < m → 0 ≤ s → Zdigits2 (Z.shiftl m s) = Zdigits2 m + s.
Proof.
  intros Hm Hs.
  assert (0 < Z.shiftl m s).
  { rewrite Z.shiftl_mul_pow2 by done. apply Z.mul_pos_pos; [done|].
    by apply Z.pow_pos_nonneg. }
  rewrite !Zdigits2_log2 by done. rewrite Z.log2_shiftl by done. lia.
Qed.

Lemma Zdigits2_mul (a b : Z) :
  0 < a → 0 < b → Zdigits2 (a * b) ≤ Zdigits2 a + Zdigits2 b.
Proof.
  intros Ha Hb. rewrite !Zdigits2_log2 by lia.
  pose proof (Z.log2_mul_above a b). lia.
Qed.

Lemma shr_1_bound (r : shr_record) :
  0 ≤ shr_m r →
  0 ≤ shr_m (shr_1 r) ∧
  Zdigits2 (shr_m (shr_1 r)) ≤ Z.max (Zdigits2 (shr_m r) - 1) 0.
Proof.
  destruct r as [[|[p|p|]|p] rb sb]; cbn; try lia.
Qed.

Lemma iter_shr_1_bound (p : positive) : ∀ r,
  0 ≤ shr_m r →
  0 ≤ shr_m (iter_pos shr_1 p r) ∧
  Zdigits2 (shr_m (iter_pos shr_1 p r))
  ≤ Z.max (Zdigits2 (shr_m r) - Zpos p) 0.
Proof.
  induction p as [p IH|p IH|]; intros r Hr; cbn [iter_pos].
  - destruct (shr_1_bound r Hr) as [H1 H1'].
    destruct (IH _ H1) as [H2 H2']. destruct (IH _ H2) as [H3 H3'].
    split; [done|]. lia.
  - destruct (IH _ Hr) as [H2 H2']. destruct (IH _ H2) as [H3 H3'].
    split; [done|]. lia.
  - apply shr_1_bound, Hr.
Qed.

Lemma shr_m_of_loc (m : Z) (l : location) : shr_m (shr_record_of_loc m l) = m.
Proof. by destruct l as [|[]]. Qed.

Lemma shr_fexp_bound (m e : Z) (l : location) :
  0 ≤ m →
  ∃ mrs e',
    shr_fexp prec emax m e l = (mrs, e') ∧
    0 ≤ shr_m mrs ∧
    e' = Z.max e (fexp prec emax (Zdigits2 m + e)) ∧
    Zdigits2 (shr_m mrs) + e' ≤ Z.max (Zdigits2 m + e) e'.
Proof.
  intros Hm. unfold shr_fexp, shr.
  set (F := fexp prec emax (Zdigits2 m + e)).
  destruct (F - e) as [|p|p] eqn:Hn.
  - eexists _, _. split; [done|]. rewrite shr_m_of_loc. lia.
  - pose proof (iter_shr_1_bound p (shr_record_of_loc m l)) as Hb.
    rewrite shr_m_of_loc in Hb. destruct (Hb Hm) as [H1 H2].
    eexists _, _. split; [done|]. split; [done|]. lia.
  - eexists _, _. split; [done|]. rewrite shr_m_of_loc. lia.
Qed.

Lemma round_nearest_even_bound (m : Z) (l : location) :
  0 ≤ m →
  0 ≤ round_nearest_even m l ∧
  Zdigits2 (round_nearest_even m l) ≤ Zdigits2 m + 1.
Proof.
  intros Hm. pose proof (Zdigits2_succ m Hm).
  unfold round_nearest_even. destruct l as [|[]]; try destruct (Z.even m); lia.
Qed.

Lemma fexp_bound (x : Z) : fexp prec emax x = Z.max (x - 53) (-1074).
Proof. done. Qed.

Lemma binary_round_aux_below (s : bool) (m e : Z) (l : location) (K : Z) :
  0 ≤ m → Zdigits2 m + e ≤ K → 0 ≤ K ≤ 1023 → e ≤ 971 →
  float_below (K + 1) (binary_round_aux prec emax s m e l).
Proof.
  intros Hm Hd HK He. unfold binary_round_aux.
  destruct (shr_fexp_bound m e l Hm) as (mrs1 & e1 & -> & Hm1 & He1 & Hd1).
  destruct (round_nearest_even_bound (shr_m mrs1) (loc_of_shr_record mrs1) Hm1)
    as [Hr Hrd].
  destruct (shr_fexp_bound _ e1 loc_Exact Hr)
    as (mrs2 & e2 & -> & Hm2 & He2 & Hd2).
  rewrite fexp_bound in He1, He2.
  pose proof (Zdigits2_nonneg m).
  destruct (shr_m mrs2) as [|p|p] eqn:Hp; [done| |lia].
  assert (e2 ≤ 971) as He2' by lia.
  destruct (Z.leb_spec e2 (emax - prec)) as [_|Hgt];
    [|unfold emax, prec in Hgt; lia].
  cbn [float_below]. lia.
Qed.

Lemma SFdiv_core_bound (a b : Z) :
  0 < a → 0 < b →
  ∃ q e l,
    SFdiv_core_binary prec emax a 0 b 0 = (q, e, l) ∧
    0 ≤ q ∧ e ≤ 0 ∧ Zdigits2 q + e ≤ Zdigits2 a.
Proof.
  intros Ha Hb. unfold SFdiv_core_binary.
  set (e := Z.min (fexp prec emax (Zdigits2 a + 0 - (Zdigits2 b + 0))) (0 - 0)).
  assert (e ≤ 0) as He by (unfold e; lia).
  set (m' := match 0 - 0 - e with
             | 0 => a
             | Z.pos _ => Z.shiftl a (0 - 0 - e)
             | Z.neg _ => 0
             end).
  assert (0 ≤ m' ∧ Zdigits2 m' + e ≤ Zdigits2 a) as [Hm' Hd'].
  { unfold m'. destruct (0 - 0 - e) as [|p|p] eqn:Hs; [lia| |lia].
    rewrite Zdigits2_shiftl by lia.
    assert (0 ≤ Z.shiftl a (Z.pos p)) by (apply Z.shiftl_nonneg; lia). lia. }
  pose proof (Z_div_mod m' b ltac:(lia)) as Hdiv.
  destruct (Z.div_eucl m' b) as [q r]. destruct Hdiv as [Heq Hr].
  exists q, e, (new_location b r). split; [done|].
  assert (0 ≤ q ≤ m') as Hq by nia.
  pose proof (Zdigits2_mono q m' Hq). lia.
Qed.

Lemma finite_or_overflow_below (K : Z) (f : spec_float) :
  float_below K f → finite_or_overflow f = Ok f.
Proof. by destruct f. Qed.

Lemma int_truediv_below (a b K : Z) :
  0 ≤ a < 2 ^ K → 0 < b → 0 ≤ K ≤ 1023 →
  ∃ q, int_truediv a b = Ok q ∧ float_below (K + 1) q.
Proof.
  intros [Ha Hlt] Hb HK. unfold int_truediv.
  destruct (Z.eqb_spec b 0) as [|_]; [lia|].
  destruct (Z.eqb_spec a 0) as [->|Hne]; [by eexists|].
  rewrite (Z.abs_eq a), (Z.abs_eq b) by lia.
  destruct (SFdiv_core_bound a b) as (q & e & l & -> & Hq & He & Hd);
    [lia..|].
  pose proof (Zdigits2_lt_pow2 a K) as Hda.
  eexists. split.
  - eapply finite_or_overflow_below, binary_round_aux_below; [done| |done|lia].
    lia.
  - apply binary_round_aux_below; lia.
Qed.

Lemma digits2_pos_iter_xO (m d : positive) :
  Zpos (digits2_pos (Pos.iter xO m d)) = Zpos (digits2_pos m) + Zpos d.
Proof.
  induction d as [|d IH] using Pos.peano_ind.
  - cbn. lia.
  - rewrite Pos.iter_succ. cbn [digits2_pos]. lia.
Qed.

Lemma float_of_int_below (n K : Z) :
  0 ≤ n < 2 ^ K → 0 ≤ K ≤ 1023 →
  ∃ w, float_of_int n = Ok w ∧ float_below (K + 1) w.
Proof.
  intros [Hn Hlt] HK. unfold float_of_int, binary_normalize.
  destruct n as [|p|p]; [by eexists| |lia].
  unfold binary_round.
  pose proof (Zdigits2_lt_pow2 (Zpos p) K) as Hd. cbn [Zdigits2] in Hd.
  assert (∃ mz ez,
            shl_align p 0 (fexp prec emax (Zpos (digits2_pos p) + 0))
            = (mz, ez) ∧
            ez ≤ 0 ∧ Zpos (digits2_pos mz) + ez = Zpos (digits2_pos p))
    as (mz & ez & -> & Hez & Hdz).
  { unfold shl_align.
    destruct (fexp prec emax (Zpos (digits2_pos p) + 0) - 0) as [|d|d] eqn:Hs;
      [eexists _, _; split; [done|lia]..|].
    eexists _, _. split; [done|]. rewrite digits2_pos_iter_xO. lia. }
  eexists. split.
  - eapply finite_or_overflow_below, (binary_round_aux_below _ _ _ _ K);
      cbn [Zdigits2]; lia.
  - apply binary_round_aux_below; cbn [Zdigits2]; lia.
Qed.

Lemma SFmul_below (x y : spec_float) (K1 K2 : Z) :
  float_below K1 x → float_below K2 y → 0 ≤ K1 + K2 ≤ 973 →
  float_below (K1 + K2 + 1) (SFmul prec emax x y).
Proof.
  destruct x as [sx|sx| |sx mx ex], y as [sy|sy| |sy my ey]; cbn [float_below SFmul];
    try done.
  intros Hx Hy HK.
  pose proof (Zdigits2_mul (Zpos mx) (Zpos my)) as Hmul.
  change (Zpos mx * Zpos my) with (Zpos (mx * my)) in Hmul.
  pose proof (Zdigits2_pos (Zpos mx)). pose proof (Zdigits2_pos (Zpos my)).
  apply binary_round_aux_below; cbn [Zdigits2] in *; lia.
Qed.

Lemma float_round_below (K : Z) (x : spec_float) :
  float_below K x → ∃ z, float_round x = Ok z.
Proof. destruct x; cbn; eauto; done. Qed.

(** Within these bounds the float computation of the filled cells
    succeeds. *)
Lemma filled_cells_ok (cur need width : Z) :
  0 ≤ cur < 2 ^ 480 → 0 < need → 0 ≤ width < 2 ^ 480 →
  ∃ filled, filled_cells cur need width = Ok filled.
Proof.
  intros Hcur Hneed Hwidth. unfold filled_cells.
  destruct (int_truediv_below cur need 480) as (q & -> & Hq); [lia..|].
  destruct (float_of_int_below width 480) as (w & -> & Hw); [lia..|].
  cbn. eapply float_round_below, SFmul_below; [done..|lia].
Qed.

Lemma length_str_repeat (c : N) (n : Z) : length (str_repeat c n) = Z.to_nat n.
Proof. apply length_replicate. Qed.

Lemma str_mul_ok (c : N) (n : Z) :
  - MAXSIZE - 1 ≤ n ≤ MAXSIZE → str_mul c n = Ok (str_repeat c n).
Proof.
  intros Hn. unfold str_mul.
  destruct (Z.ltb_spec n (- MAXSIZE - 1)); [lia|].
  destruct (Z.ltb_spec MAXSIZE n); [lia|done].
Qed.

Lemma str_mul_inv (c : N) (n : Z) (s : list N) :
  str_mul c n = Ok s → s = str_repeat c n.
Proof. unfold str_mul. destruct (_ || _); [done|]. by intros [= <-]. Qed.

Lemma str_add_ok (a b : list N) :
  Z.of_nat (length a) + Z.of_nat (length b) ≤ MAXSIZE →
  str_add a b = Ok (a ++ b).
Proof.
  intros Hn. unfold str_add.
  by destruct (Z.ltb_spec MAXSIZE (Z.of_nat (length a) + Z.of_nat (length b)));
    [lia|].
Qed.

(** For a width that is a valid length, the string operations of
    [render_progress_bar] succeed, and only the float computation of the
    filled cells can raise. *)
Lemma render_progress_bar_strings (cur need width : Z) :
  0 ≤ width ≤ MAXSIZE →
  render_progress_bar cur need width
  = if need <=? 0 then Ok (str_repeat FULL_BLOCK width)
    else
      rounded ← filled_cells cur need width;
      let filled := Z.max 0 (Z.min width rounded) in
      Ok (str_repeat FULL_BLOCK filled
          ++ str_repeat LIGHT_SHADE (width - filled)).
Proof.
  intros Hwidth. unfold render_progress_bar.
  destruct (need <=? 0); [apply str_mul_ok; unfold MAXSIZE in *; lia|].
  destruct (filled_cells cur need width) as [rounded|]; [|done].
  cbn. rewrite !str_mul_ok by (unfold MAXSIZE in *; lia). cbn.
  apply str_add_ok. rewrite !length_str_repeat. lia.
Qed.




Example half_way_rounds_to_even :
  filled_cells 1 8 20 = Ok 2 ∧ filled_cells 3 8 20 = Ok 8.
Proof. split; by vm_compute. Qed.

(** ** Concrete runs of the commands *)

Example party_order :
  reply (party ascii_lower roster_names true 7 roster_file)
  = Ok (PartyList [ ("Dave", 5, 7000, Some 7000);
                    ("UID:4", 2, 450, Some 450);
                    ("Alice", 2, 300, Some 600);
                    ("bob", 2, 300, Some 600) ]) ∧
  reply (party ascii_lower roster_names false 7 roster_file)
  = Raise AttributeError.
Proof. split; by vm_compute. Qed.

Lemma join_existing_or_new_witness :
  file_after (join true 7 42 3 0 (demo_file 300)) = demo_file 300 ∧
  xp_on_file (file_after (join true 7 42 1 0 None)) 7 42 = 0.
Proof.
  destruct (join_existing_or_new 7 42 3 0 (demo_file 300)) as (H1 & _ & _).
  destruct (join_existing_or_new 7 42 1 0 None) as (_ & _ & H3).
  split.
  - apply (H1 {["xp" := 300]}). by vm_compute.
  - by apply H3.
Defined.

Lemma setlevel_snaps_to_threshold_witness :
  ∃ t, prev_threshold 5 = Ok t ∧
       xp_on_file (file_after (setlevel true true 7 42 5 (demo_file 20000)))
         7 42 = t ∧
       level_from_xp t = 5 ∧
       reply (setlevel true true 7 42 5 (demo_file 20000))
       = Ok (LevelSet 5 t) ∧
       (5 = 5 → t = 6500).
Proof.
  apply (setlevel_snaps_to_threshold true 7 42 5 (demo_file 20000)). lia.
Defined.

Example setlevel_downgrade :
  xp_on_file (demo_file 20000) 7 42 = 20000 ∧
  xp_on_file (file_after (setlevel true false 7 42 5 (demo_file 20000))) 7 42
  = 6500 ∧
  reply (setlevel true false 7 42 5 (demo_file 20000)) = Raise AttributeError.
Proof. by vm_compute. Qed.

Lemma read_only_commands_do_not_save_witness :
  ∃ db, db_local (status 7 42 None) = Some db ∧
        db_local (party ascii_lower roster_names false 7 None) = Some db ∧
        db !! str 7 = Some {| members := ∅ |}.
Proof.
  destruct (read_only_commands_do_not_save ascii_lower roster_names false
              7 42 None) as (_ & _ & H).
  by apply H.
Defined.

Lemma party_lists_all_members_sorted_witness :
  (∃ fields,
     reply (party ascii_lower roster_names true 7 roster_file)
     = Ok (PartyList fields) ∧
     fst <$> fields
     = row_entry
         <$> party_sortable ascii_lower roster_names
               (get_members (load_db roster_file) (str 7))) ∧
  reply (party ascii_lower roster_names false 7 roster_file)
  = Raise AttributeError.
Proof.
  assert (get_members (load_db roster_file) (str 7) ≠ ∅) as Hmembers.
  { intros Hempty. apply (f_equal (λ m, m !! "1")) in Hempty.
    by vm_compute in Hempty. }
  split.
  - destruct (party_lists_all_members_sorted ascii_lower roster_names true 7
                roster_file) as (_ & _ & _ & H & _).
    by apply H.
  - destruct (party_lists_all_members_sorted ascii_lower roster_names false 7
                roster_file) as (_ & _ & _ & _ & H).
    by apply H.
Defined.

(** * Further properties of the code *)

Lemma next_is_prev_of_next (L high : Z) :
  L < 20 →
  next_threshold L = Ok (Some high) ↔ prev_threshold (L + 1) = Ok high.
Proof.
  intros HL. unfold next_threshold, prev_threshold.
  destruct (Z.geb_spec L 20); [lia|].
  replace (L + 1 - 1) with L by lia.
  destruct (py_getitem XP_THRESHOLDS L); cbn; split; congruence.
Qed.

(** The level of [xp] is bracketed by its own threshold and the next. *)
Lemma level_bracket (xp L low : Z) :
  1 ≤ L ≤ 20 → prev_threshold L = Ok low →
  level_from_xp xp = L ↔
  (L = 1 ∨ low ≤ xp) ∧
  (∀ high, next_threshold L = Ok (Some high) → xp < high).
Proof.
  intros HL Hlow.
  destruct (threshold_table L HL) as (t & _ & Ht & Hat & Hbelow).
  rewrite Hlow in Ht. injection Ht as <-.
  pose proof (level_from_xp_bounds xp) as Hb.
  split.
  - intros Hlvl. split.
    + destruct (decide (L = 1)) as [|Hne]; [by left|right].
      destruct (Z.le_gt_cases low xp) as [|Hlt]; [done|].
      pose proof (level_from_xp_mono xp (low - 1) ltac:(lia)).
      rewrite Hbelow in * by lia. lia.
    + intros high Hhigh.
      destruct (decide (L = 20)) as [->|Hne];
        [by rewrite next_threshold_max in Hhigh|].
      apply next_is_prev_of_next in Hhigh; [|lia].
      destruct (threshold_table (L + 1) ltac:(lia)) as (t & _ & Ht & Hat' & _).
      rewrite Hhigh in Ht. injection Ht as <-.
      destruct (Z.lt_ge_cases xp high) as [|Hge]; [done|].
      pose proof (level_from_xp_mono high xp Hge). lia.
  - intros [Hlo Hhi].
    assert (L ≤ level_from_xp xp).
    { destruct Hlo as [->|Hlo]; [lia|].
      rewrite <- Hat. by apply level_from_xp_mono. }
    destruct (decide (L = 20)) as [->|Hne]; [lia|].
    destruct (threshold_table (L + 1) ltac:(lia)) as (high & _ & Ht & _ & Hat').
    assert (next_threshold L = Ok (Some high)) as Hnext
      by (apply next_is_prev_of_next; [lia|done]).
    specialize (Hhi high Hnext).
    pose proof (level_from_xp_mono xp (high - 1) ltac:(lia)) as Hm.
    rewrite Hat' in Hm by lia. lia.
Qed.

(** Below the last level a non-negative [xp] lies between the two
    neighbouring thresholds of its level. *)
Lemma level_interval (xp : Z) :
  0 ≤ xp → level_from_xp xp ≠ 20 →
  ∃ low high,
    prev_threshold (level_from_xp xp) = Ok low ∧
    next_threshold (level_from_xp xp) = Ok (Some high) ∧
    low ≤ xp < high.
Proof.
  intros Hxp H20. pose proof (level_from_xp_bounds xp) as Hb.
  destruct (thresholds_below_max (level_from_xp xp)) as (low & high & Hl & Hh);
    [lia|].
  exists low, high. split; [done|]. split; [done|].
  destruct (level_bracket xp (level_from_xp xp) low) as [Hfwd _];
    [lia|done|].
  destruct (Hfwd eq_refl) as [Hlo Hhi].
  split; [|by apply Hhi].
  destruct Hlo as [H1|]; [|done].
  rewrite H1 in Hl. injection Hl as <-. done.
Qed.

(** X1: the level of [xp] is L exactly when [xp] has reached the threshold
    of L (or L is 1) and has not reached the threshold of L + 1. *)
Theorem level_from_xp_characterised (xp L : Z) :
  1 ≤ L ≤ 20 →
  ∃ low,
    prev_threshold L = Ok low ∧
    (level_from_xp xp = L ↔
     (L = 1 ∨ low ≤ xp) ∧
     (∀ high, next_threshold L = Ok (Some high) → xp < high)).
Proof.
  intros HL. destruct (threshold_table L HL) as (low & _ & Hlow & _).
  exists low. split; [done|]. by apply level_bracket.
Qed.

Lemma level_from_xp_characterised_witness :
  ∃ low,
    prev_threshold 3 = Ok low ∧
    (level_from_xp 1000 = 3 ↔
     (3 = 1 ∨ low ≤ 1000) ∧
     (∀ high, next_threshold 3 = Ok (Some high) → 1000 < high)).
Proof. apply (level_from_xp_characterised 1000 3). lia. Defined.

(** X2: below level 20 and for [xp >= 0], the progress inside the level
    and the remaining xp add up to the width of the level; the progress is
    short of it and the remaining xp is positive. *)
Theorem progress_and_remaining_agree (xp : Z) :
  0 ≤ xp → level_from_xp xp ≠ 20 →
  ∃ cur need rem,
    progress_in_level xp = Ok (cur, need, level_from_xp xp) ∧
    remaining_to_next xp = Ok (Some rem) ∧
    0 ≤ cur < need ∧ 0 < rem ∧ cur + rem = need.
Proof.
  intros Hxp H20. pose proof (level_from_xp_bounds xp) as Hb.
  destruct (level_interval xp Hxp H20) as (low & high & Hl & Hh & Hlo & Hhi).
  exists (xp - low), (high - low), (high - xp).
  unfold progress_in_level, remaining_to_next. rewrite Hl, Hh.
  destruct (Z.geb_spec (level_from_xp xp) 20); [lia|]. cbn.
  split; [repeat f_equal; lia|]. split; [repeat f_equal; lia|]. lia.
Qed.

Lemma progress_and_remaining_agree_witness :
  ∃ cur need rem,
    progress_in_level 1000 = Ok (cur, need, level_from_xp 1000) ∧
    remaining_to_next 1000 = Ok (Some rem) ∧
    0 ≤ cur < need ∧ 0 < rem ∧ cur + rem = need.
Proof. apply (progress_and_remaining_agree 1000); [lia|by vm_compute]. Defined.

(** X3: a negative [xp] is at level 1 with progress 0 of 300, and the
    remaining xp is the whole distance to 300. *)
Theorem negative_xp_is_level_one (xp : Z) :
  xp < 0 →
  level_from_xp xp = 1 ∧
  progress_in_level xp = Ok (0, 300, 1) ∧
  remaining_to_next xp = Ok (Some (300 - xp)).
Proof.
  intros Hxp.
  assert (level_from_xp xp = 1) as H1.
  { pose proof (level_from_xp_bounds xp).
    pose proof (level_from_xp_mono xp 0 ltac:(lia)) as Hm.
    change (level_from_xp 0) with 1 in Hm. lia. }
  split; [done|]. unfold progress_in_level, remaining_to_next. rewrite H1.
  change (prev_threshold 1) with (Ok (A := Z) 0).
  change (next_threshold 1) with (Ok (Some 300)).
  cbn. split; repeat f_equal; lia.
Qed.

Lemma negative_xp_is_level_one_witness :
  level_from_xp (-500) = 1 ∧
  progress_in_level (-500) = Ok (0, 300, 1) ∧
  remaining_to_next (-500) = Ok (Some (300 - -500)).
Proof. apply (negative_xp_is_level_one (-500)). lia. Defined.

(** Python indexing on a list: out of [-len, len) it raises, and a
    negative index reads from the end. *)
Lemma py_getitem_raises (l : list Z) (i : Z) :
  py_getitem l i = Raise IndexError ↔
  i < - Z.of_nat (length l) ∨ Z.of_nat (length l) ≤ i.
Proof.
  unfold py_getitem.
  destruct (Z.ltb_spec i 0) as [Hneg|Hpos].
  - destruct (Z.leb_spec 0 (i + Z.of_nat (length l))) as [H0|H0]; cbn.
    + destruct (Z.ltb_spec (i + Z.of_nat (length l)) (Z.of_nat (length l)));
        [|lia].
      destruct (l !! Z.to_nat (i + Z.of_nat (length l))) eqn:E.
      * split; [done|lia].
      * apply lookup_ge_None in E. lia.
    + split; [lia|done].
  - destruct (Z.leb_spec 0 i) as [_|]; [|lia]. cbn.
    destruct (Z.ltb_spec i (Z.of_nat (length l))) as [Hlt|Hge].
    + destruct (l !! Z.to_nat i) eqn:E.
      * split; [done|lia].
      * apply lookup_ge_None in E. lia.
    + split; [lia|done].
Qed.

Lemma py_getitem_error (l : list Z) (i : Z) (e : exn) :
  py_getitem l i = Raise e → e = IndexError.
Proof. unfold py_getitem. repeat case_match; congruence. Qed.

Lemma py_getitem_negative (l : list Z) (i : Z) :
  - Z.of_nat (length l) ≤ i < 0 →
  py_getitem l i = py_getitem l (i + Z.of_nat (length l)).
Proof.
  intros Hi. unfold py_getitem.
  destruct (Z.ltb_spec i 0); [|lia].
  destruct (Z.ltb_spec (i + Z.of_nat (length l)) 0); [lia|]. done.
Qed.

Lemma prev_threshold_raises (level : Z) :
  prev_threshold level = Raise IndexError ↔ level < -19 ∨ 20 < level.
Proof.
  unfold prev_threshold. rewrite py_getitem_raises.
  change (Z.of_nat (length XP_THRESHOLDS)) with 20. lia.
Qed.

(** X4: [prev_threshold] raises [IndexError] exactly outside -19..20 and
    [next_threshold] exactly below -20; a level that is zero or negative is
    read from the end of the table, as level + 20. *)
Theorem threshold_lookup_edges (level : Z) :
  (prev_threshold level = Raise IndexError ↔ level < -19 ∨ 20 < level) ∧
  (-19 ≤ level ≤ 0 → prev_threshold level = prev_threshold (level + 20)) ∧
  (next_threshold level = Raise IndexError ↔ level < -20) ∧
  (-20 ≤ level < 0 → next_threshold level = next_threshold (level + 20)) ∧
  (20 ≤ level → next_threshold level = Ok None).
Proof.
  split; [|split; [|split; [|split]]].
  - apply prev_threshold_raises.
  - intros H. unfold prev_threshold.
    rewrite py_getitem_negative
      by (change (Z.of_nat (length XP_THRESHOLDS)) with 20; lia).
    change (Z.of_nat (length XP_THRESHOLDS)) with 20. f_equal. lia.
  - unfold next_threshold. destruct (Z.geb_spec level 20) as [H|H].
    + split; [done|lia].
    + pose proof (py_getitem_raises XP_THRESHOLDS level) as Hr.
      change (Z.of_nat (length XP_THRESHOLDS)) with 20 in Hr.
      destruct (py_getitem XP_THRESHOLDS level) as [t|e] eqn:E; cbn.
      * split; [done|]. intros Hlt.
        assert (Ok t = Raise IndexError) as Habs by (apply Hr; lia). done.
      * apply py_getitem_error in E as Hie. subst e. split; [|done].
        intros _. destruct Hr as [Hr _]. specialize (Hr eq_refl). lia.
  - intros H. unfold next_threshold.
    destruct (Z.geb_spec level 20); [lia|].
    destruct (Z.geb_spec (level + 20) 20); [lia|].
    rewrite py_getitem_negative
      by (change (Z.of_nat (length XP_THRESHOLDS)) with 20; lia).
    done.
  - apply next_threshold_max.
Qed.

(** The record that [ensure_member] leaves under its keys. *)
Lemma get_member_ensure_member db guild_id user_id :
  get_member (ensure_member (guild_bucket db guild_id) (str guild_id) user_id)
    (str guild_id) (str user_id)
  = default {["xp" := 0]} (get_members db (str guild_id) !! str user_id).
Proof.
  unfold get_member. rewrite lookup_ensure_member, get_members_guild_bucket.
  destruct (get_members db (str guild_id) !! str user_id); [done|].
  by rewrite decide_True.
Qed.

(** Every record on file after [add_xp_for_member]. *)
Lemma lookup_after_add_xp guild_id user_id delta file gid uid :
  get_members
    (load_db (file_after (add_xp_for_member guild_id user_id delta file)))
    gid !! uid
  = if decide (str guild_id = gid ∧ str user_id = uid)
    then Some (<["xp" := Z.max 0 (xp_on_file file guild_id user_id + delta)]>
                 (default {["xp" := 0]}
                    (get_members (load_db file) gid !! uid)))
    else get_members (load_db file) gid !! uid.
Proof.
  destruct (add_xp_for_member_run guild_id user_id delta file) as [-> _].
  cbn [load_db save_db]. unfold set_member_xp. rewrite lookup_set_member.
  case_decide as H.
  - destruct H as [<- <-]. by rewrite get_member_ensure_member.
  - rewrite lookup_ensure_member, get_members_guild_bucket.
    destruct (get_members (load_db file) gid !! uid); [done|].
    rewrite decide_False; [done|]. intros [? ?]. by apply H.
Qed.

(** X5: [guild_bucket] followed by [ensure_member] leaves the guild and the
    member present, keeps every record that was there, adds at most the
    record [{"xp": 0}] of the member, and changes nothing when repeated. *)
Theorem ensure_member_only_adds (db : gmap string GroupRecord)
    (guild_id user_id : Z) :
  let db' := ensure_member (guild_bucket db guild_id) (str guild_id) user_id in
  is_Some (db' !! str guild_id) ∧
  is_Some (get_members db' (str guild_id) !! str user_id) ∧
  (∀ gid uid m, get_members db gid !! uid = Some m →
                get_members db' gid !! uid = Some m) ∧
  (∀ gid uid, get_members db gid !! uid = None →
              get_members db' gid !! uid
              = if decide (str guild_id = gid ∧ str user_id = uid)
                then Some {["xp" := 0]} else None) ∧
  ensure_member (guild_bucket db' guild_id) (str guild_id) user_id = db'.
Proof.
  intros db'.
  assert (∀ gid uid,
            get_members db' gid !! uid
            = match get_members db gid !! uid with
              | Some m => Some m
              | None => if decide (str guild_id = gid ∧ str user_id = uid)
                        then Some {["xp" := 0]} else None
              end) as Hlook.
  { intros gid uid. unfold db'.
    by rewrite lookup_ensure_member, get_members_guild_bucket. }
  assert (is_Some (get_members db' (str guild_id) !! str user_id)) as Hin.
  { rewrite Hlook. destruct (get_members db _ !! _); [done|].
    by rewrite decide_True. }
  assert (is_Some (db' !! str guild_id)) as Hg.
  { destruct Hin as [m Hm]. unfold get_members in Hm.
    destruct (db' !! str guild_id); [done|]. by rewrite lookup_empty in Hm. }
  split; [done|]. split; [done|]. split; [|split].
  - intros gid uid m Hm. by rewrite Hlook, Hm.
  - intros gid uid Hm. by rewrite Hlook, Hm.
  - destruct Hg as [g Hg]. destruct Hin as [m Hm].
    unfold guild_bucket at 1. rewrite Hg.
    unfold ensure_member at 1. by rewrite Hm.
Qed.

(** X6: [add_xp_for_member] on somebody without a record creates the
    record with [max 0 delta] xp, and whoever it is called for, no other
    record changes. *)
Theorem award_creates_missing_member (guild_id user_id delta : Z)
    (file : option (gmap string GroupRecord)) :
  let r := add_xp_for_member guild_id user_id delta file in
  let after := load_db (file_after r) in
  (get_members (load_db file) (str guild_id) !! str user_id = None →
   get_members after (str guild_id) !! str user_id
   = Some {["xp" := Z.max 0 delta]} ∧
   ∃ info, reply r = Ok info ∧ after_xp info = Z.max 0 delta) ∧
  (∀ gid uid, ¬ (str guild_id = gid ∧ str user_id = uid) →
              get_members after gid !! uid
              = get_members (load_db file) gid !! uid).
Proof.
  intros r after. split.
  - intros Hnone.
    assert (xp_on_file file guild_id user_id = 0) as Hx.
    { unfold xp_on_file, get_member. by rewrite Hnone. }
    split.
    + unfold after, r. rewrite lookup_after_add_xp, decide_True by done.
      rewrite Hnone, Hx. cbn. by rewrite insert_singleton_eq.
    + destruct (add_xp_for_member_run guild_id user_id delta file)
        as (_ & rem & cur & need & Hreply).
      fold r in Hreply. rewrite Hx in Hreply. eexists. split; [done|]. done.
  - intros gid uid Hne. unfold after, r.
    by rewrite lookup_after_add_xp, decide_False.
Qed.

Lemma award_creates_missing_member_witness :
  get_members (load_db (file_after (add_xp_for_member 7 43 250 (demo_file 300))))
    (str 7) !! str 43
  = Some {["xp" := Z.max 0 250]}.
Proof.
  destruct (award_creates_missing_member 7 43 250 (demo_file 300)) as [H _].
  apply H. by vm_compute.
Defined.

(** X7: an award of zero or less never reports a level-up and never
    raises xp or level; an award of zero or more adds exactly [delta] and
    never lowers the level. *)
Theorem award_sign_and_level (guild_id user_id delta : Z)
    (file : option (gmap string GroupRecord)) :
  let x := xp_on_file file guild_id user_id in
  0 ≤ x →
  ∃ info,
    reply (add_xp_for_member guild_id user_id delta file) = Ok info ∧
    (delta ≤ 0 →
     leveled info = false ∧ after_xp info ≤ x ∧
     after_lvl info ≤ level_from_xp x) ∧
    (0 ≤ delta →
     after_xp info = x + delta ∧ level_from_xp x ≤ after_lvl info).
Proof.
  intros x Hx.
  destruct (add_xp_for_member_run guild_id user_id delta file)
    as (_ & rem & cur & need & Hreply).
  fold x in Hreply. eexists. split; [exact Hreply|]. cbn. split.
  - intros Hd.
    pose proof (level_from_xp_mono (Z.max 0 (x + delta)) x ltac:(lia)).
    split; [|split; [lia|done]]. apply bool_decide_eq_false. lia.
  - intros Hd. split; [lia|]. apply level_from_xp_mono. lia.
Qed.

Lemma award_sign_and_level_witness :
  ∃ info,
    reply (add_xp_for_member 7 42 (-100) (demo_file 300)) = Ok info ∧
    (-100 ≤ 0 →
     leveled info = false ∧ after_xp info ≤ xp_on_file (demo_file 300) 7 42 ∧
     after_lvl info ≤ level_from_xp (xp_on_file (demo_file 300) 7 42)) ∧
    (0 ≤ -100 →
     after_xp info = xp_on_file (demo_file 300) 7 42 + -100 ∧
     level_from_xp (xp_on_file (demo_file 300) 7 42) ≤ after_lvl info).
Proof. apply (award_sign_and_level 7 42 (-100) (demo_file 300)). by vm_compute. Defined.

(** X8: [leveled] is reported exactly when the new xp reaches the next
    threshold of the old level, and never at level 20. *)
Theorem level_up_iff_threshold_reached (guild_id user_id delta : Z)
    (file : option (gmap string GroupRecord)) :
  let x := xp_on_file file guild_id user_id in
  0 ≤ x →
  ∃ info,
    reply (add_xp_for_member guild_id user_id delta file) = Ok info ∧
    (level_from_xp x = 20 → leveled info = false) ∧
    (∀ high, next_threshold (level_from_xp x) = Ok (Some high) →
             (leveled info = true ↔ high ≤ x + delta)).
Proof.
  intros x Hx.
  destruct (add_xp_for_member_run guild_id user_id delta file)
    as (_ & rem & cur & need & Hreply).
  fold x in Hreply. eexists. split; [exact Hreply|]. cbn.
  pose proof (level_from_xp_bounds x) as Hb.
  pose proof (level_from_xp_bounds (Z.max 0 (x + delta))) as Hb'.
  split.
  - intros H20. apply bool_decide_eq_false. lia.
  - intros high Hhigh. rewrite bool_decide_eq_true.
    destruct (decide (level_from_xp x = 20)) as [H20|H20];
      [by rewrite next_threshold_max in Hhigh by lia|].
    apply next_is_prev_of_next in Hhigh; [|lia].
    destruct (threshold_table (level_from_xp x + 1) ltac:(lia))
      as (t & _ & Ht & Hat & Hbelow).
    rewrite Hhigh in Ht. injection Ht as <-.
    assert (0 ≤ high) by (by eapply threshold_nonneg).
    split.
    + intros Hgt. destruct (Z.le_gt_cases high (x + delta)) as [|Hlt]; [done|].
      pose proof (level_from_xp_mono (Z.max 0 (x + delta)) (high - 1)) as Hm.
      rewrite Hbelow in Hm by lia.
      assert (high ≠ 0).
      { intros ->. pose proof (level_from_xp_mono 0 x Hx) as Hm0.
        rewrite Hat in Hm0. lia. }
      lia.
    + intros Hge.
      pose proof (level_from_xp_mono high (Z.max 0 (x + delta)) ltac:(lia)).
      lia.
Qed.

Lemma level_up_iff_threshold_reached_witness :
  ∃ info,
    reply (add_xp_for_member 7 42 600 (demo_file 300)) = Ok info ∧
    (level_from_xp (xp_on_file (demo_file 300) 7 42) = 20 →
     leveled info = false) ∧
    (∀ high,
       next_threshold (level_from_xp (xp_on_file (demo_file 300) 7 42))
       = Ok (Some high) →
       (leveled info = true ↔ high ≤ xp_on_file (demo_file 300) 7 42 + 600)).
Proof.
  apply (level_up_iff_threshold_reached 7 42 600 (demo_file 300)).
  by vm_compute.
Defined.

(** [status] on a member whose record carries an ["xp"] key. *)
Lemma status_of_record guild_id user_id file m x :
  get_members (load_db file) (str guild_id) !! str user_id = Some m →
  m !! "xp" = Some x →
  ∃ rem,
    remaining_to_next x = Ok rem ∧
    reply (status guild_id user_id file)
    = Ok (Status (level_from_xp x) x rem).
Proof.
  intros Hm Hx. unfold status. rewrite get_members_guild_bucket, Hm.
  assert (m ≠ ∅) as Hne by (intros ->; by rewrite lookup_empty in Hx).
  rewrite decide_False by done. cbn [reply].
  assert (member_xp m = x) as -> by (unfold member_xp; by rewrite Hx).
  destruct (progress_in_level_ok x) as (cur & need & -> & _).
  destruct (remaining_to_next_ok x) as [rem Hrem]. rewrite Hrem.
  by exists rem.
Qed.

(** What [add_xp_for_member] returns, with the progress fields spelled out. *)
Lemma add_xp_for_member_reply guild_id user_id delta file :
  let x := xp_on_file file guild_id user_id in
  let new_xp := Z.max 0 (x + delta) in
  ∃ rem cur need,
    remaining_to_next new_xp = Ok rem ∧
    progress_in_level new_xp = Ok (cur, need, level_from_xp new_xp) ∧
    reply (add_xp_for_member guild_id user_id delta file)
    = Ok {| add := delta; after_xp := new_xp;
            after_lvl := level_from_xp new_xp;
            leveled := bool_decide (level_from_xp new_xp > level_from_xp x);
            rem := rem; cur_in_level := cur; need_for_level := need |}.
Proof.
  intros x new_xp. unfold add_xp_for_member. cbn [reply].
  rewrite !before_xp_on_file. fold x new_xp.
  unfold set_member_xp. rewrite get_member_set_member, member_xp_insert.
  destruct (remaining_to_next_ok new_xp) as [rem Hrem].
  destruct (progress_in_level_ok new_xp) as (cur & need & Hp & _).
  exists rem, cur, need. by rewrite Hrem, Hp.
Qed.

(** X9: [status] right after [add_xp_for_member] shows the level, xp and
    remaining xp that the award returned. *)
Theorem status_after_award (guild_id user_id delta : Z)
    (file : option (gmap string GroupRecord)) :
  let r := add_xp_for_member guild_id user_id delta file in
  ∃ info,
    reply r = Ok info ∧
    reply (status guild_id user_id (file_after r))
    = Ok (Status (after_lvl info) (after_xp info) (rem info)).
Proof.
  intros r.
  destruct (add_xp_for_member_reply guild_id user_id delta file)
    as (rem0 & cur & need & Hrem & _ & Hreply).
  fold r in Hreply. eexists. split; [exact Hreply|].
  cbn [after_lvl after_xp rem].
  edestruct (status_of_record guild_id user_id (file_after r))
    as (rem' & Hrem' & ->).
  - unfold r. by rewrite lookup_after_add_xp, decide_True.
  - apply lookup_insert_eq.
  - rewrite Hrem in Hrem'. by injection Hrem' as <-.
Qed.

(** X10: after a new member joins, [status] shows what [join] answered,
    with at least the requested xp and at least the requested level. *)
Theorem status_after_join (guild_id target_id level xp : Z)
    (file : option (gmap string GroupRecord)) :
  1 ≤ level ≤ 20 →
  get_members (load_db file) (str guild_id) !! str target_id = None →
  let r := join true guild_id target_id level xp file in
  ∃ xp' lvl rem,
    reply r = Ok (Joined xp' lvl rem) ∧
    reply (status guild_id target_id (file_after r)) = Ok (Status lvl xp' rem) ∧
    xp ≤ xp' ∧ level ≤ lvl.
Proof.
  intros HL Hnone r.
  destruct (threshold_table level HL) as (t & _ & Ht & Hat & _).
  unfold r, join; cbn [negb]. rewrite get_members_guild_bucket, Hnone.
  unfold prev_threshold in Ht. rewrite Ht. cbn [file_after reply].
  set (xp' := if xp <? t then t else xp).
  assert (xp ≤ xp' ∧ t ≤ xp') as [Hxp Ht']
    by (unfold xp'; destruct (Z.ltb_spec xp t); lia).
  destruct (status_of_record guild_id target_id
              (save_db (set_member (guild_bucket (load_db file) guild_id)
                          (str guild_id) (str target_id) {["xp" := xp']}))
              {["xp" := xp']} xp') as (rem & Hrem & Hstatus).
  - cbn [load_db save_db]. by rewrite lookup_set_member, decide_True.
  - apply lookup_singleton_eq.
  - rewrite Hrem. cbn. exists xp', (level_from_xp xp'), rem.
    split; [done|]. split; [done|]. split; [done|].
    rewrite <- Hat. by apply level_from_xp_mono.
Qed.

Lemma status_after_join_witness :
  ∃ xp' lvl rem,
    reply (join true 7 43 3 100 (demo_file 300)) = Ok (Joined xp' lvl rem) ∧
    reply (status 7 43 (file_after (join true 7 43 3 100 (demo_file 300))))
    = Ok (Status lvl xp' rem) ∧
    100 ≤ xp' ∧ 3 ≤ lvl.
Proof.
  apply (status_after_join 7 43 3 100 (demo_file 300)); [lia|by vm_compute].
Defined.

(** [join] on a member who has a record saves nothing. *)
Lemma join_present_file permitted guild_id target_id level xp file :
  is_Some (get_members (load_db file) (str guild_id) !! str target_id) →
  file_after (join permitted guild_id target_id level xp file) = file.
Proof.
  intros [m Hm]. unfold join. destruct permitted; cbn [negb]; [|done].
  by rewrite get_members_guild_bucket, Hm.
Qed.

(** Every record on file after [join]. *)
Lemma lookup_after_join permitted guild_id target_id level xp file gid uid :
  is_Some (get_members (load_db file) gid !! uid) →
  is_Some (get_members
             (load_db (file_after (join permitted guild_id target_id level xp
                                     file))) gid !! uid).
Proof.
  intros Hm. unfold join. destruct permitted; cbn [negb]; [|done].
  destruct (get_members (guild_bucket (load_db file) guild_id)
              (str guild_id) !! str target_id); [done|].
  destruct (py_getitem XP_THRESHOLDS (level - 1)); [|done].
  cbn [file_after load_db save_db].
  rewrite lookup_set_member. case_decide; [done|].
  by rewrite get_members_guild_bucket.
Qed.

Lemma lookup_after_setlevel administrator has_icon guild_id user_id level
    file gid uid :
  is_Some (get_members (load_db file) gid !! uid) →
  is_Some (get_members
             (load_db (file_after (setlevel administrator has_icon guild_id
                                     user_id level file))) gid !! uid).
Proof.
  intros [m Hm]. unfold setlevel. destruct administrator; cbn [negb]; [|done].
  destruct (py_getitem XP_THRESHOLDS (level - 1)); [|done].
  cbn [file_after load_db save_db].
  unfold set_member_xp. rewrite lookup_set_member. case_decide; [done|].
  by rewrite lookup_ensure_member, get_members_guild_bucket, Hm.
Qed.

Lemma lookup_after_add_xp_kept guild_id user_id delta file gid uid :
  is_Some (get_members (load_db file) gid !! uid) →
  is_Some (get_members
             (load_db (file_after (add_xp_for_member guild_id user_id delta
                                     file))) gid !! uid).
Proof. intros Hm. rewrite lookup_after_add_xp. by case_decide. Qed.

Lemma exec_keeps_member lower fetch_member c file gid uid :
  is_Some (get_members (load_db file) gid !! uid) →
  is_Some (get_members (load_db (exec lower fetch_member c file)) gid !! uid).
Proof.
  intros Hm. destruct c; cbn [exec].
  - by apply lookup_after_join.
  - by rewrite status_file.
  - by rewrite party_file.
  - unfold addxp. case_match; [done|]. by apply lookup_after_add_xp_kept.
  - destruct (addxp_all_file_loop fetch_member has_icon guild_id amount file)
      as [ids ->].
    revert file Hm. unfold addxp_all_loop.
    induction ids as [|u ids IH]; intros file Hm; [done|].
    cbn. apply IH. destruct (fetch_member u); [|done].
    by apply lookup_after_add_xp_kept.
  - by apply lookup_after_setlevel.
Qed.

(** X11: no sequence of commands removes a member record. *)
Theorem commands_never_remove_members (lower : string → string)
    (fetch_member : string → option (Z * string)) (cmds : list Command)
    (file : option (gmap string GroupRecord)) (gid uid : string) :
  is_Some (get_members (load_db file) gid !! uid) →
  is_Some (get_members
             (load_db (foldl (λ f c, exec lower fetch_member c f) file cmds))
             gid !! uid).
Proof.
  revert file. induction cmds as [|c cmds IH]; intros file Hm; [done|].
  cbn. by apply IH, exec_keeps_member.
Qed.

Lemma commands_never_remove_members_witness :
  is_Some (get_members
             (load_db (foldl (λ f c, exec ascii_lower roster_names c f)
                         (demo_file 300)
                         [CmdAddxp true 7 42 (-1000);
                          CmdSetlevel true false 7 43 2;
                          CmdJoin true 7 42 5 0; CmdAddxpAll true 7 10]))
             "7" !! "42").
Proof.
  apply (commands_never_remove_members ascii_lower roster_names
           [CmdAddxp true 7 42 (-1000); CmdSetlevel true false 7 43 2;
            CmdJoin true 7 42 5 0; CmdAddxpAll true 7 10]
           (demo_file 300) "7" "42").
  eexists. by vm_compute.
Defined.

(** X12: once somebody has joined, the member is on file and a later
    [join], whatever its arguments, does not change the file. *)
Theorem join_after_join_is_noop (guild_id target_id level xp : Z)
    (file : option (gmap string GroupRecord))
    (permitted' : bool) (level' xp' : Z) :
  1 ≤ level ≤ 20 →
  let joined := file_after (join true guild_id target_id level xp file) in
  is_Some (get_members (load_db joined) (str guild_id) !! str target_id) ∧
  file_after (join permitted' guild_id target_id level' xp' joined) = joined.
Proof.
  intros HL joined.
  assert (is_Some (get_members (load_db joined) (str guild_id)
                     !! str target_id)) as Hin.
  { destruct (get_members (load_db file) (str guild_id) !! str target_id)
      as [m|] eqn:Hm.
    - unfold joined. rewrite join_present_file by (by rewrite Hm).
      by rewrite Hm.
    - unfold joined, join; cbn [negb]. rewrite get_members_guild_bucket, Hm.
      destruct (threshold_table level HL) as (t & _ & Ht & _).
      unfold prev_threshold in Ht. rewrite Ht.
      cbn [file_after load_db save_db].
      by rewrite lookup_set_member, decide_True. }
  split; [done|]. by apply join_present_file.
Qed.

Lemma join_after_join_is_noop_witness :
  file_after (join true 7 43 9 0 (file_after (join true 7 43 2 0 (demo_file 5))))
  = file_after (join true 7 43 2 0 (demo_file 5)).
Proof.
  apply (join_after_join_is_noop 7 43 2 0 (demo_file 5) true 9 0). lia.
Defined.

Section addxp_all_properties.
Variable fetch_member : string → option (Z * string).
Variables guild_id amount : Z.

(** The member fetched for a key is the member stored under that key. *)
Hypothesis fetch_own_id :
  ∀ uid member, fetch_member uid = Some member → str member.1 = uid.

Lemma addxp_all_loop_cons (u : string) (ids : list string) file :
  addxp_all_loop fetch_member guild_id amount (u :: ids) file
  = addxp_all_loop fetch_member guild_id amount ids
      match fetch_member u with
      | None => file
      | Some member =>
          file_after (add_xp_for_member guild_id member.1 amount file)
      end.
Proof. done. Qed.


End addxp_all_properties.


Section lock_properties.
Variables guild_id user_id : Z.

Lemma in_critical_holds_lock (s : Sys) (i : nat) (t : Task) :
  task_ok guild_id user_id s i t → in_critical t = true → sys_lock s = Some i.
Proof.
  unfold task_ok, in_critical. destruct (t_pc t); try done. by intros [? _].
Qed.

Lemma not_critical_no_lock (s : Sys) (i : nat) (t : Task) :
  task_ok guild_id user_id s i t → in_critical t = false → sys_lock s ≠ Some i.
Proof. unfold task_ok, in_critical. by destruct (t_pc t). Qed.

Lemma task_step_lock_held (s s' : Sys) (i : nat) (ev : list Z) :
  (∀ j t, tasks s !! j = Some t → task_ok guild_id user_id s j t) →
  lock_held_by_task s →
  task_step guild_id user_id s i = Some (s', ev) →
  lock_held_by_task s'.
Proof.
  intros Hok Hheld. unfold task_step.
  destruct (tasks s !! i) as [t|] eqn:Ht; [|done]. cbn.
  assert (i < length (tasks s))%nat as Hi by (by eapply lookup_lt_Some).
  pose proof (Hok i t Ht) as Hti. unfold task_ok in Hti.
  unfold lock_held_by_task.
  destruct (t_pc t) as [| |db bx bl|bl ax al|bl ax al|res] eqn:Hpc.
  - destruct (sys_lock s); [done|]. intros [= <- <-]. cbn.
    eexists. split; [by apply list_lookup_insert_eq|done].
  - intros [= <- <-]. cbn. rewrite Hti.
    eexists. split; [by apply list_lookup_insert_eq|done].
  - destruct Hti as [Hl _]. intros [= <- <-]. cbn. rewrite Hl.
    eexists. split; [by apply list_lookup_insert_eq|done].
  - by intros [= <- <-].
  - intros [= <- <-]. cbn. unfold lock_held_by_task in Hheld.
    destruct (sys_lock s) as [j|]; [|done].
    destruct Hheld as (tj & Htj & Hc). exists tj. split; [|done].
    unfold set_pc. rewrite list_lookup_insert_ne; [done|]. congruence.
  - done.
Qed.

Lemma run_lock_held (x0 : Z) (ds : list Z) (sched : list nat) :
  ∀ (s s' : Sys) (log evs : list Z),
    sys_inv guild_id user_id x0 ds s log →
    lock_held_by_task s →
    run guild_id user_id s sched = Some (s', evs) →
    lock_held_by_task s'.
Proof.
  induction sched as [|i sched IH]; intros s s' log evs Hinv Hheld; cbn.
  - by intros [= <- <-].
  - destruct (task_step guild_id user_id s i) as [[s1 ev]|] eqn:Hstep;
      [|done]. cbn.
    destruct (run guild_id user_id s1 sched) as [[s2 evs']|] eqn:Hrun;
      [|done]. cbn.
    intros [= <- <-].
    eapply (IH s1 s2 (log ++ ev)); [by eapply task_step_inv| |done].
    eapply task_step_lock_held; [|done..]. apply Hinv.
Qed.

(** X14: in every reachable state at most one call is inside the locked
    block, and the xp a call has read there is still the xp on file. *)
Theorem lock_gives_mutual_exclusion
    (file : option (gmap string GroupRecord)) (ds : list Z)
    (sched : list nat) (s : Sys) (log : list Z) :
  run guild_id user_id (init_sys file ds) sched = Some (s, log) →
  (∀ i j ti tj,
     tasks s !! i = Some ti → tasks s !! j = Some tj →
     in_critical ti = true → in_critical tj = true → i = j) ∧
  (∀ i t db before_xp before_lvl,
     tasks s !! i = Some t → t_pc t = Loaded db before_xp before_lvl →
     before_xp = xp_on_file (sys_file s) guild_id user_id).
Proof.
  intros Hrun.
  pose proof (run_inv guild_id user_id _ ds sched _ _ _ _
                (init_sys_inv guild_id user_id file ds) Hrun) as (Hok & _).
  split.
  - intros i j ti tj Hi Hj Hci Hcj.
    pose proof (in_critical_holds_lock s i ti (Hok i ti Hi) Hci) as H1.
    pose proof (in_critical_holds_lock s j tj (Hok j tj Hj) Hcj) as H2.
    congruence.
  - intros i t db bx bl Hi Hpc. pose proof (Hok i t Hi) as Ht.
    unfold task_ok in Ht. rewrite Hpc in Ht. by destruct Ht.
Qed.

(** X15: in every reachable state with an unfinished call, some call can
    take a step. *)
Theorem lock_never_deadlocks
    (file : option (gmap string GroupRecord)) (ds : list Z)
    (sched : list nat) (s : Sys) (log : list Z) :
  run guild_id user_id (init_sys file ds) sched = Some (s, log) →
  all_done s = false →
  ∃ i s' ev, task_step guild_id user_id s i = Some (s', ev).
Proof.
  intros Hrun Hnot.
  pose proof (run_inv guild_id user_id _ ds sched _ _ _ _
                (init_sys_inv guild_id user_id file ds) Hrun) as Hinv.
  pose proof (run_lock_held _ ds sched _ _ _ _
                (init_sys_inv guild_id user_id file ds) I Hrun) as Hheld.
  destruct Hinv as (Hok & _). unfold lock_held_by_task in Hheld.
  destruct (sys_lock s) as [i|] eqn:Hl.
  - destruct Hheld as (t & Ht & Hc). exists i.
    unfold task_step. rewrite Ht. cbn. unfold in_critical in Hc.
    destruct (t_pc t); try done; eauto.
  - unfold all_done in Hnot.
    assert (∃ j t, tasks s !! j = Some t ∧ is_done t = false)
      as (j & t & Ht & Hd).
    { clear -Hnot. induction (tasks s) as [|t ts IH]; [done|].
      cbn in Hnot. destruct (is_done t) eqn:Hd.
      - destruct (IH Hnot) as (j & t' & ? & ?). by exists (S j), t'.
      - by exists 0%nat, t. }
    exists j. unfold task_step. rewrite Ht. cbn. rewrite Hl.
    pose proof (Hok j t Ht) as Htok. unfold task_ok in Htok.
    unfold is_done in Hd.
    destruct (t_pc t); try done; try congruence; eauto.
Qed.
End lock_properties.

Lemma lock_gives_mutual_exclusion_witness :
  ∃ s log,
    run 7 42 (init_sys (demo_file 0) [5; 6]) [0; 0]%nat = Some (s, log) ∧
    (∀ i j ti tj,
       tasks s !! i = Some ti → tasks s !! j = Some tj →
       in_critical ti = true → in_critical tj = true → i = j).
Proof.
  destruct (run 7 42 (init_sys (demo_file 0) [5; 6]) [0; 0]%nat)
    as [[s log]|] eqn:Hrun; [|by vm_compute in Hrun].
  exists s, log. split; [done|].
  apply (lock_gives_mutual_exclusion 7 42 (demo_file 0) [5; 6] [0; 0]%nat
           s log Hrun).
Defined.

Lemma lock_never_deadlocks_witness :
  ∃ s log,
    run 7 42 (init_sys (demo_file 0) [5; 6]) [0; 0; 0; 0; 1]%nat
    = Some (s, log) ∧
    ∃ i s' ev, task_step 7 42 s i = Some (s', ev).
Proof.
  destruct (run 7 42 (init_sys (demo_file 0) [5; 6]) [0; 0; 0; 0; 1]%nat)
    as [[s log]|] eqn:Hrun; [|by vm_compute in Hrun].
  exists s, log. split; [done|].
  apply (lock_never_deadlocks 7 42 (demo_file 0) [5; 6] [0; 0; 0; 0; 1]%nat
           s log Hrun).
  vm_compute in Hrun. injection Hrun as <- <-. by vm_compute.
Defined.

Lemma chunk_loop_spec {A : Type} (fuel : nat) (text : list A) :
  ∀ (start : nat) (chunks : list (list A)),
    (length text ≤ start + fuel)%nat →
    ∃ more,
      chunk_loop fuel text start chunks = Some (chunks ++ more) ∧
      concat more = drop start text ∧
      Forall (λ c, (0 < length c ≤ MAX_MESSAGE_LEN)%nat) more.
Proof.
  induction fuel as [|fuel IH]; intros start chunks Hfuel; cbn [chunk_loop].
  - rewrite decide_False by lia. exists []. rewrite app_nil_r.
    split; [done|]. split; [|done]. by rewrite drop_ge by lia.
  - destruct (decide (start < length text)%nat) as [Hlt|Hge].
    + destruct (IH (start + MAX_MESSAGE_LEN)%nat
                  (chunks ++ [take MAX_MESSAGE_LEN (drop start text)]))
        as (more & -> & Hcat & Hall); [unfold MAX_MESSAGE_LEN; lia|].
      exists (take MAX_MESSAGE_LEN (drop start text) :: more).
      split; [by rewrite <- app_assoc|]. split.
      * cbn. rewrite Hcat, <- drop_drop. apply take_drop.
      * constructor; [|done].
        rewrite length_take, length_drop. unfold MAX_MESSAGE_LEN. lia.
    + exists []. rewrite app_nil_r. split; [done|]. split; [|done].
      by rewrite drop_ge by lia.
Qed.

(** X16: [send_text_safely] sends the text in pieces of 1 to 1900
    characters that concatenate to the text, the first through the response
    unless it is already done; an empty text sends nothing, and raises
    [IndexError] when the response is not done yet. *)
Theorem send_text_safely_chunks {A : Type} (is_done : bool) (text : list A) :
  ∃ out,
    send_text_safely is_done text = Some out ∧
    (text = [] → out = if is_done then Ok [] else Raise IndexError) ∧
    (text ≠ [] →
     ∃ msgs,
       out = Ok msgs ∧
       concat (payload <$> msgs) = text ∧
       Forall (λ m, (0 < length (payload m) ≤ MAX_MESSAGE_LEN)%nat) msgs ∧
       ∃ first rest,
         msgs = first :: rest ∧
         (first = if is_done then ViaFollowup (payload first)
                  else ViaResponse (payload first)) ∧
         Forall (λ m, m = ViaFollowup (payload m)) rest).
Proof.
  unfold send_text_safely.
  destruct (chunk_loop_spec (length text) text 0%nat [])
    as (chunks & -> & Hcat & Hall); [lia|].
  cbn in *. eexists. split; [done|]. rewrite drop_0 in Hcat. split.
  - intros ->. destruct chunks as [|c chunks]; [done|].
    inversion_clear Hall as [|? ? Hc _].
    destruct c; [cbn in Hc; lia|done].
  - intros Hne. destruct chunks as [|c chunks]; [by subst|].
    inversion_clear Hall as [|? ? Hc Hall'].
    assert (concat (payload <$> (ViaFollowup <$> chunks)) = concat chunks) as Hpay.
    { f_equal. rewrite <- list_fmap_compose. apply list_fmap_id. }
    assert (Forall (λ m : Sent A, (0 < length (payload m) ≤ MAX_MESSAGE_LEN)%nat)
              (ViaFollowup <$> chunks)) as Hall2
      by (by apply Forall_fmap).
    assert (Forall (λ m : Sent A, m = ViaFollowup (payload m))
              (ViaFollowup <$> chunks)) as Hfol
      by (apply Forall_fmap, Forall_forall; done).
    destruct is_done; eexists; (split; [done|]); cbn; rewrite Hpay;
      (split; [done|]); (split; [by constructor|]); eauto.
Qed.

Lemma send_text_safely_chunks_witness :
  ∃ msgs,
    send_text_safely false [1; 2; 3] = Some (Ok msgs) ∧
    concat (payload <$> msgs) = [1; 2; 3].
Proof.
  destruct (send_text_safely_chunks false [1; 2; 3]) as (out & Hout & _ & H).
  destruct H as (msgs & -> & Hcat & _); [done|].
  by exists msgs.
Defined.

(** A bar that is returned has [width] cells. *)
Lemma render_progress_bar_length (cur need width : Z) (bar : list N) :
  0 ≤ width →
  render_progress_bar cur need width = Ok bar → length bar = Z.to_nat width.
Proof.
  intros Hw. unfold render_progress_bar.
  destruct (Z.leb_spec need 0).
  - intros ->%str_mul_inv. apply length_str_repeat.
  - destruct (filled_cells cur need width) as [f|]; [|done]. cbn.
    destruct (str_mul FULL_BLOCK _) as [full|] eqn:Hfull; [|done].
    destruct (str_mul LIGHT_SHADE _) as [light|] eqn:Hlight; [|done].
    apply str_mul_inv in Hfull as ->. apply str_mul_inv in Hlight as ->.
    cbn. unfold str_add. destruct (_ <? _); [done|].
    intros [= <-]. rewrite length_app, !length_str_repeat. lia.
Qed.

Lemma threshold_le_max (i t : Z) :
  py_getitem XP_THRESHOLDS i = Ok t → t ≤ 355000.
Proof.
  unfold py_getitem. case_match; [|done].
  destruct (XP_THRESHOLDS !! _) as [v|] eqn:E; [|done]. intros [= <-].
  assert (Forall (λ v, v ≤ 355000) XP_THRESHOLDS) as Hall
    by (repeat constructor; lia).
  rewrite Forall_lookup in Hall. by eapply Hall.
Qed.

(** The progress of any xp is small: [need] is a gap of the table. *)
Lemma progress_in_level_small (xp : Z) :
  ∃ cur need,
    progress_in_level xp = Ok (cur, need, level_from_xp xp) ∧
    0 ≤ cur ≤ 355000 ∧ 0 ≤ need ≤ 355000 ∧
    (level_from_xp xp ≠ 20 → 0 < need).
Proof.
  pose proof (level_from_xp_bounds xp) as Hb.
  unfold progress_in_level.
  destruct (Z.geb_spec (level_from_xp xp) 20) as [H20|H20].
  - exists 0, 0. replace (level_from_xp xp) with 20 by lia.
    split; [done|]. lia.
  - destruct (thresholds_below_max (level_from_xp xp)) as (low & high & Hl & Hh);
      [lia|].
    rewrite Hl, Hh. cbn.
    pose proof (threshold_nonneg _ _ Hl) as Hl0.
    assert (high ≤ 355000 ∧ low < high) as [Hh1 Hlh].
    { assert (prev_threshold (level_from_xp xp + 1) = Ok high) as Hp
        by (apply next_is_prev_of_next; [lia|done]).
      split; [by eapply threshold_le_max|].
      destruct (level_bracket low (level_from_xp xp) low) as [Hfwd _];
        [lia|done|].
      destruct (threshold_table (level_from_xp xp) ltac:(lia))
        as (t & _ & Ht & Hat & _).
      rewrite Hl in Ht. injection Ht as <-.
      destruct (Hfwd Hat) as [_ Hhi]. by apply Hhi. }
    destruct (Z.le_gt_cases 0 xp) as [Hxp|Hxp].
    + destruct (level_bracket xp (level_from_xp xp) low) as [Hfwd _];
        [lia|done|].
      destruct (Hfwd eq_refl) as [_ Hhi]. specialize (Hhi high Hh).
      eexists _, _. split; [done|]. lia.
    + eexists _, _. split; [done|]. lia.
Qed.



(** X18: the bar drawn for the progress of any xp never raises and has 20
    cells; at level 20 all of them are filled. *)
Theorem progress_bar_of_any_xp (xp : Z) :
  ∃ cur need bar,
    progress_in_level xp = Ok (cur, need, level_from_xp xp) ∧
    render_progress_bar cur need PROGRESS_WIDTH = Ok bar ∧
    length bar = 20%nat ∧
    (level_from_xp xp = 20 → bar = str_repeat FULL_BLOCK 20).
Proof.
  destruct (progress_in_level_small xp) as (cur & need & Hp & Hcur & Hneed & Hpos).
  assert (∃ bar, render_progress_bar cur need PROGRESS_WIDTH = Ok bar)
    as [bar Hbar].
  { rewrite render_progress_bar_strings by done.
    destruct (Z.leb_spec need 0); [by eexists|].
    destruct (filled_cells_ok cur need PROGRESS_WIDTH) as [f ->];
      [|done| |by eexists].
    - split; [lia|]. apply Z.le_lt_trans with 355000; [lia|done].
    - done. }
  exists cur, need, bar. split; [done|]. split; [done|]. split.
  - by rewrite (render_progress_bar_length cur need PROGRESS_WIDTH bar).
  - intros H20. unfold progress_in_level in Hp. rewrite H20 in Hp.
    cbn in Hp. injection Hp as <- <-. cbn in Hbar. by injection Hbar as <-.
Qed.

Lemma binary_round_aux_sign (s : bool) (m e : Z) (l : location) :
  match binary_round_aux prec emax s m e l with
  | S754_finite s' _ _ => s' = s
  | _ => True
  end.
Proof.
  unfold binary_round_aux.
  destruct (shr_fexp prec emax m e l) as [mrs1 e1].
  destruct (shr_fexp prec emax _ e1 loc_Exact) as [mrs2 e2].
  destruct (shr_m mrs2); [done| |done].
  by destruct (Z.leb _ _).
Qed.

Lemma int_truediv_nonneg (a b K : Z) :
  0 ≤ a < 2 ^ K → 0 < b → 0 ≤ K ≤ 1023 →
  ∃ q, int_truediv a b = Ok q ∧ float_below (K + 1) q ∧ float_nonneg q.
Proof.
  intros Ha Hb HK.
  destruct (int_truediv_below a b K Ha Hb HK) as (q & Hq & Hbelow).
  exists q. split; [done|]. split; [done|].
  unfold int_truediv in Hq.
  destruct (Z.eqb_spec b 0); [lia|].
  destruct (Z.eqb_spec a 0); [by injection Hq as <-|].
  destruct (SFdiv_core_binary _ _ _ _ _ _) as [[mz ez] lz].
  assert (xorb (a <? 0) (b <? 0) = false) as Hs.
  { destruct (Z.ltb_spec a 0), (Z.ltb_spec b 0); (done || lia). }
  rewrite Hs in Hq.
  pose proof (binary_round_aux_sign false mz ez lz) as Hsign.
  destruct (binary_round_aux prec emax false mz ez lz);
    try done; by injection Hq as <-.
Qed.

Lemma float_trunc_nonneg (x : spec_float) :
  float_nonneg x → ∃ z, float_trunc x = Ok z ∧ 0 ≤ z.
Proof.
  destruct x as [s|s| |s m e]; cbn; try done.
  - by exists 0.
  - intros ->. eexists. split; [done|]. cbn.
    destruct (Z.leb_spec 0 e).
    + apply Z.mul_nonneg_nonneg; [done|]. by apply Z.pow_nonneg.
    + apply Z.div_pos; [done|]. apply Z.pow_pos_nonneg; lia.
Qed.

(** The percentage of a progress inside the table never raises and is not
    negative. *)
Lemma percent_of_ok (cur need : Z) :
  0 ≤ cur ≤ 355000 → 0 < need →
  ∃ p, percent_of cur need = Ok p ∧ 0 ≤ p.
Proof.
  intros Hcur Hneed. unfold percent_of.
  destruct (int_truediv_nonneg cur need 480) as (q & -> & Hq & Hqs);
    [split; [lia|]; apply Z.le_lt_trans with 355000; [lia|done]|done|lia|].
  change (float_of_int 100)
    with (Ok (S754_finite false 7036874417766400 (-46))).
  cbn [mbind pyres_bind].
  apply float_trunc_nonneg.
  destruct q as [sq|sq| |sq mq eq]; try done. cbn in Hqs. subst sq.
  cbn [SFmul xorb].
  pose proof (binary_round_aux_sign false (Zpos (mq * 7036874417766400))
                (eq + -46) loc_Exact) as Hsign.
  assert (float_below (480 + 1 + 7 + 1)
            (binary_round_aux prec emax false (Zpos (mq * 7036874417766400))
               (eq + -46) loc_Exact)) as Hbelow; [|by destruct (binary_round_aux _ _ _ _ _ _)].
  pose proof (Zdigits2_mul (Zpos mq) 7036874417766400) as Hmul.
  change (Zpos mq * 7036874417766400) with (Zpos (mq * 7036874417766400))
    in Hmul.
  pose proof (Zdigits2_pos (Zpos mq)).
  change (Zdigits2 7036874417766400) with 53 in Hmul.
  cbn [float_below] in Hq.
  apply binary_round_aux_below; [done| |lia|]; cbn [Zdigits2] in *; lia.
Qed.

(** X19: [render_progress_abs] never raises; it answers "MAX" without a
    percentage exactly at level 20, and a percentage is never negative. *)
Theorem render_progress_abs_total (xp : Z) :
  ∃ text percent,
    render_progress_abs xp = Ok (text, percent) ∧
    (percent = None ↔ level_from_xp xp = 20) ∧
    (level_from_xp xp = 20 → text = "MAX") ∧
    (∀ p, percent = Some p → 0 ≤ p).
Proof.
  unfold render_progress_abs.
  destruct (progress_in_level_small xp) as (cur & need & -> & Hcur & Hneed & Hpos).
  cbn [mbind pyres_bind].
  pose proof (level_from_xp_bounds xp) as Hb.
  destruct (Z.eqb_spec (level_from_xp xp) 20) as [H20|H20].
  - eexists _, _. split; [done|]. split; [done|]. split; [done|]. done.
  - destruct (thresholds_below_max (level_from_xp xp)) as (low & high & -> & ->);
      [lia|].
    cbn [mbind pyres_bind].
    destruct (Z.eqb_spec need 0) as [|_]; [lia|].
    destruct (percent_of_ok cur need) as (p & -> & Hp); [done|lia|].
    cbn. eexists _, _. split; [done|]. split; [done|]. split; [done|].
    by intros ? [= <-].
Qed.

(** Every record on file after [setlevel]. *)
Lemma lookup_after_setlevel_ok has_icon guild_id user_id level t file gid uid :
  py_getitem XP_THRESHOLDS (level - 1) = Ok t →
  get_members
    (load_db (file_after (setlevel true has_icon guild_id user_id level file)))
    gid !! uid
  = if decide (str guild_id = gid ∧ str user_id = uid)
    then Some (<["xp" := t]>
                 (default {["xp" := 0]}
                    (get_members (load_db file) gid !! uid)))
    else get_members (load_db file) gid !! uid.
Proof.
  intros Ht. unfold setlevel; cbn [negb]. rewrite Ht.
  cbn [file_after load_db save_db]. unfold set_member_xp.
  rewrite lookup_set_member. case_decide as H.
  - destruct H as [<- <-]. by rewrite get_member_ensure_member.
  - rewrite lookup_ensure_member, get_members_guild_bucket.
    destruct (get_members (load_db file) gid !! uid); [done|].
    rewrite decide_False; [done|]. intros [? ?]. by apply H.
Qed.

(** X20: [setlevel] changes no record but the member's, keeps the other
    keys of that record, and saves nothing for a caller who is not an
    administrator or for a level outside -19..20. *)
Theorem setlevel_touches_one_record (administrator has_icon : bool)
    (guild_id user_id level : Z) (file : option (gmap string GroupRecord)) :
  let after :=
    load_db (file_after (setlevel administrator has_icon guild_id user_id
                           level file)) in
  (∀ gid uid,
     ¬ (str guild_id = gid ∧ str user_id = uid) →
     get_members after gid !! uid = get_members (load_db file) gid !! uid) ∧
  (∀ m key,
     get_members (load_db file) (str guild_id) !! str user_id = Some m →
     key ≠ "xp" →
     ∃ m', get_members after (str guild_id) !! str user_id = Some m' ∧
           m' !! key = m !! key) ∧
  (administrator = false ∨ level < -19 ∨ 20 < level →
   file_after (setlevel administrator has_icon guild_id user_id level file)
   = file).
Proof.
  intros after. unfold after.
  destruct administrator; [|by split; [|split; [eauto|]]].
  destruct (py_getitem XP_THRESHOLDS (level - 1)) as [t|e] eqn:Ht.
  - split; [|split].
    + intros gid uid Hne.
      by rewrite (lookup_after_setlevel_ok _ _ _ _ t), decide_False.
    + intros m key Hm Hkey.
      rewrite (lookup_after_setlevel_ok _ _ _ _ t), decide_True, Hm by done.
      eexists. split; [done|]. cbn. by rewrite lookup_insert_ne.
    + intros [|Hl]; [done|].
      assert (prev_threshold level = Raise IndexError) as Habs
        by (by apply prev_threshold_raises).
      unfold prev_threshold in Habs. congruence.
  - assert (file_after (setlevel true has_icon guild_id user_id level file)
            = file)
      as -> by (unfold setlevel; cbn [negb]; by rewrite Ht).
    split; [done|]. split; [eauto|done].
Qed.

Lemma addxp_file has_icon guild_id user_id amount file :
  file_after (addxp has_icon guild_id user_id amount file)
  = if amount =? 0 then file
    else file_after (add_xp_for_member guild_id user_id amount file).
Proof. unfold addxp. by case_match. Qed.

Lemma exec_other_guild lower fetch_member c file gid uid :
  gid ≠ str (command_guild c) →
  get_members (load_db (exec lower fetch_member c file)) gid !! uid
  = get_members (load_db file) gid !! uid.
Proof.
  intros Hne. destruct c; cbn [exec command_guild] in *.
  - unfold join. destruct permitted; cbn [negb]; [|done].
    destruct (get_members (guild_bucket (load_db file) guild_id)
                (str guild_id) !! str target_id); [done|].
    destruct (py_getitem XP_THRESHOLDS (level - 1)); [|done].
    cbn [file_after load_db save_db].
    rewrite lookup_set_member, decide_False, get_members_guild_bucket;
      [done|]. intros [? _]. by apply Hne.
  - by rewrite status_file.
  - by rewrite party_file.
  - rewrite addxp_file. case_match; [done|].
    rewrite lookup_after_add_xp, decide_False; [done|].
    intros [? _]. by apply Hne.
  - destruct (addxp_all_file_loop fetch_member has_icon guild_id amount file)
      as [ids ->].
    revert file.
    induction ids as [|u ids IH]; intros file; [done|].
    rewrite addxp_all_loop_cons, IH. destruct (fetch_member u); [|done].
    rewrite lookup_after_add_xp, decide_False; [done|].
    intros [? _]. by apply Hne.
  - destruct administrator; [|done].
    destruct (py_getitem XP_THRESHOLDS (level - 1)) as [t|e] eqn:Ht.
    + rewrite (lookup_after_setlevel_ok _ _ _ _ t), decide_False; [done| |done].
      intros [? _]. by apply Hne.
    + unfold setlevel; cbn [negb]. by rewrite Ht.
Qed.

(** X21: commands for other guilds leave the records of a guild as they
    are. *)
Theorem commands_keep_to_their_guild (lower : string → string)
    (fetch_member : string → option (Z * string)) (cmds : list Command)
    (file : option (gmap string GroupRecord)) (gid uid : string) :
  Forall (λ c, gid ≠ str (command_guild c)) cmds →
  get_members (load_db (foldl (λ f c, exec lower fetch_member c f) file cmds))
    gid !! uid
  = get_members (load_db file) gid !! uid.
Proof.
  intros Hall. revert file.
  induction Hall as [|c cmds Hc Hall IH]; intros file; [done|].
  cbn. by rewrite IH, exec_other_guild.
Qed.

Lemma commands_keep_to_their_guild_witness :
  get_members
    (load_db (foldl (λ f c, exec ascii_lower roster_names c f) (demo_file 300)
                [CmdAddxp true 8 42 50; CmdSetlevel true true 9 42 3;
                 CmdAddxpAll false 8 5]))
    "7" !! "42"
  = get_members (load_db (demo_file 300)) "7" !! "42".
Proof.
  apply (commands_keep_to_their_guild ascii_lower roster_names
           [CmdAddxp true 8 42 50; CmdSetlevel true true 9 42 3;
            CmdAddxpAll false 8 5] (demo_file 300)).
  repeat constructor; by vm_compute.
Defined.

Lemma threshold_lookup_edges_witness :
  prev_threshold 0 = prev_threshold (0 + 20).
Proof.
  destruct (threshold_lookup_edges 0) as (_ & H & _). apply H. lia.
Defined.

Lemma ensure_member_only_adds_witness :
  get_members
    (ensure_member (guild_bucket (load_db (demo_file 300)) 7) (str 7) 43)
    "7" !! "42"
  = Some {["xp" := 300]}.
Proof.
  destruct (ensure_member_only_adds (load_db (demo_file 300)) 7 43)
    as (_ & _ & H & _).
  apply H. by vm_compute.
Defined.

Lemma progress_bar_of_any_xp_witness :
  ∃ cur need bar,
    progress_in_level 400000 = Ok (cur, need, level_from_xp 400000) ∧
    render_progress_bar cur need PROGRESS_WIDTH = Ok bar ∧
    length bar = 20%nat ∧
    (level_from_xp 400000 = 20 → bar = str_repeat FULL_BLOCK 20).
Proof. apply (progress_bar_of_any_xp 400000). Defined.

Lemma render_progress_abs_total_witness :
  ∃ text percent,
    render_progress_abs 400000 = Ok (text, percent) ∧
    (percent = None ↔ level_from_xp 400000 = 20) ∧
    (level_from_xp 400000 = 20 → text = "MAX") ∧
    (∀ p, percent = Some p → 0 ≤ p).
Proof. apply (render_progress_abs_total 400000). Defined.

Lemma setlevel_touches_one_record_witness :
  file_after (setlevel false true 7 42 5 (demo_file 300)) = demo_file 300 ∧
  file_after (setlevel true true 7 42 21 (demo_file 300)) = demo_file 300.
Proof.
  destruct (setlevel_touches_one_record false true 7 42 5 (demo_file 300))
    as (_ & _ & H1).
  destruct (setlevel_touches_one_record true true 7 42 21 (demo_file 300))
    as (_ & _ & H2).
  split; [apply H1; by left|apply H2; right; right; lia].
Defined.

Example percent_is_truncated :
  render_progress_abs 387 = Ok ("300 → 387 из 900 (14%)", Some 14).
Proof. by vm_compute. Qed.
